(** * psmail: pixelating rectangular regions of a screenshot

    A shallow embedding of [src/pixelate_email.py] and the properties of
    its pixelation transform.

    The program works on a NumPy array of shape (height, width, channels)
    and calls two libraries:
    - NumPy basic slicing, [a[y1:y2, x1:x2]], for reading a region and for
      writing it back;
    - Pillow's [Image.resize] with [Image.NEAREST].
    Both are modelled below from their behaviour. The resize model
    follows Pillow's nearest-neighbour scaling: the output sample [i] of
    [n_out] reads the input sample at the truncation of a coordinate that
    starts at half the scale [n_in / n_out] and is stepped by the scale
    in double precision. *)

From stdpp Require Import base option list gmap strings.
From Stdlib Require Import ZArith Lia.
From Corelib Require Import PrimFloat.

Local Open Scope nat_scope.

(** ** Exceptions and outcomes *)

(** The exceptions the program can meet. [InvalidRegion] is the error kind
    the specification names; no statement of the source raises it. *)
Inductive exn : Type :=
  | ZeroDivisionError
  | ValueError
  | FileNotFoundError
  | UnidentifiedImageError
  | OSError
  | InvalidRegion.

Inductive outcome (T : Type) : Type :=
  | Returns (v : T)
  | Raises (e : exn).
Arguments Returns {T} v.
Arguments Raises {T} e.

Definition bind {T U : Type} (m : outcome T) (k : T -> outcome U) : outcome U :=
  match m with
  | Returns v => k v
  | Raises e => Raises e
  end.

Notation "'let*' x ':=' m 'in' k" := (bind m (fun x => k))
  (at level 10, x name, m at level 100, k at level 200, only parsing).

Definition returned {T : Type} (m : outcome T) : Prop :=
  match m with Returns _ => True | Raises _ => False end.

(** ** Configuration constants of the script *)

Definition INPUT_FILE : string := "email.jpg".
Definition OUTPUT_FILE : string := "email_pixelated.jpg".
Definition PIXEL_SIZE : Z := 15.
Definition QUALITY : Z := 95.

Definition rect : Type := (Z * Z * Z * Z)%type.

Definition FROM_COLUMN : rect := (539, 145, 875, 400)%Z.
Definition SUBJECT_COLUMN : rect := (895, 145, 1998, 400)%Z.

(** ** Python slices *)

(** [slice_bound n i]: the position a slice bound [i] denotes in a
    dimension of length [n]: a negative bound counts from the end, and the
    result is clamped to [0..n]. *)
Definition slice_bound (n : nat) (i : Z) : nat :=
  if (i <? 0)%Z then Z.to_nat (i + Z.of_nat n) else Nat.min (Z.to_nat i) n.

(** [slice_range n start stop]: first position and length of
    [start:stop] in a dimension of length [n] (length [max 0 (hi - lo)]). *)
Definition slice_range (n : nat) (start stop : Z) : nat * nat :=
  let lo := slice_bound n start in
  let hi := slice_bound n stop in
  (lo, hi - lo).

Definition sublist {T : Type} (lo len : nat) (l : list T) : list T :=
  take len (drop lo l).

(** [splice lo len new old]: [old] with the [len] items from [lo] on
    replaced by [new]. *)
Definition splice {T : Type} (lo len : nat) (new old : list T) : list T :=
  take lo old ++ new ++ drop (lo + len) old.

(** ** Image buffers *)

Section Pixelator.

(** A pixel is whatever sits at one (row, column) position of the array:
    the vector of its channel samples. [zero] is the all-zero pixel, which
    Pillow writes where a resize has no source sample. *)
Context {A : Type} (zero : A).

(** The array with its shape: an array with no rows still has a width. *)
Record ndarray : Type := NDArray {
  shape_h : nat;
  shape_w : nat;
  rows : list (list A)
}.

Definition well_shaped (a : ndarray) : Prop :=
  length (rows a) = shape_h a /\
  Forall (fun r => length r = shape_w a) (rows a).

(** The pixel in row [y], column [x], if the array has one there. *)
Definition pixel (a : ndarray) (y x : nat) : option A :=
  rows a !! y ≫= fun r => r !! x.

(** The same read where a pixel is needed: [zero] off the array. *)
Definition pix (a : ndarray) (y x : nat) : A :=
  default zero (pixel a y x).

(** The array of shape (h, w) whose pixel (y, x) is [f y x]. *)
Definition tabulate (h w : nat) (f : nat -> nat -> A) : ndarray :=
  NDArray h w ((fun y => (fun x => f y x) <$> seq 0 w) <$> seq 0 h).

(** [img_array[y1:y2, x1:x2]] read. *)
Definition getslice (a : ndarray) (y1 y2 x1 x2 : Z) : ndarray :=
  let '(ly, hy) := slice_range (shape_h a) y1 y2 in
  let '(lx, wx) := slice_range (shape_w a) x1 x2 in
  NDArray hy wx (sublist lx wx <$> sublist ly hy (rows a)).

(** [img_array[y1:y2, x1:x2] = v], for a value [v] that has the shape of
    the slice (the only use the program makes of it). *)
Definition setslice (a : ndarray) (y1 y2 x1 x2 : Z) (v : ndarray) : ndarray :=
  let '(ly, hy) := slice_range (shape_h a) y1 y2 in
  let '(lx, wx) := slice_range (shape_w a) x1 x2 in
  NDArray (shape_h a) (shape_w a)
    (splice ly hy
       (zip_with (fun new old => splice lx wx new old)
          (rows v) (sublist ly hy (rows a)))
       (rows a)).

(** ** Pillow's nearest-neighbour resize *)

(** Pillow computes the source coordinate of output index [i] in double
    precision: the scale is [(double) n_in / n_out], the coordinate
    starts at [scale * 0.5] and grows by [xo += scale] from one index to
    the next; the source index is the coordinate truncated. *)
Fixpoint float_of_nat (n : nat) : float :=
  match n with
  | 0 => 0%float
  | S k => (float_of_nat k + 1)%float
  end.

Definition scale (n_in n_out : nat) : float :=
  (float_of_nat n_in / float_of_nat n_out)%float.

Fixpoint stepped (a : float) (i : nat) : float :=
  match i with
  | 0 => (a * 0.5)%float
  | S k => (stepped a k + a)%float
  end.

(** The coordinate in exact arithmetic is [(2 i + 1) n_in / (2 n_out)];
    [centre_sample] is its floor and [on_tie] says that it is a whole
    number. *)
Definition centre_sample (n_in n_out i : nat) : nat :=
  ((2 * i + 1) * n_in) / (2 * n_out).

Definition on_tie (n_in n_out i : nat) : bool :=
  ((2 * i + 1) * n_in) mod (2 * n_out) =? 0.

(** Source index read by output index [i] when [n_in] samples are scaled
    to [n_out]. Off a tie the stepped double truncates to the floor of
    the exact coordinate. On a tie it does so too when the scale is a
    whole number, every step being exact then; otherwise the stepped
    double decides: where it has fallen below the whole number the index
    is one lower. *)
Definition nearest (n_in n_out i : nat) : nat :=
  let q := centre_sample n_in n_out i in
  if on_tie n_in n_out i && negb (n_in mod n_out =? 0)
     && (stepped (scale n_in n_out) i <? float_of_nat q)%float
  then q - 1
  else q.

(** The stepped double lies from index [r] up to, not including, the
    next: [r] is what truncating it gives. *)
Definition truncates_to (n_in n_out i r : nat) : bool :=
  ((float_of_nat r <=? stepped (scale n_in n_out) i)
   && (stepped (scale n_in n_out) i <? float_of_nat (S r)))%float.

(** [nearest] is the truncation of the stepped double at every output
    index of a scaling from [n_in] to [n_out]. *)
Definition all_truncate (n_in n_out : nat) : bool :=
  forallb (fun i => truncates_to n_in n_out i (nearest n_in n_out i))
          (seq 0 n_out).

(** [im.resize((xsize, ysize), Image.NEAREST)]. A request for the size the
    image already has returns a copy; a target with a dimension below 1 is
    refused with ValueError. *)
Definition resize (im : ndarray) (xsize ysize : nat) : outcome ndarray :=
  if (xsize =? shape_w im) && (ysize =? shape_h im) then Returns im
  else if (xsize <? 1) || (ysize <? 1) then Raises ValueError
  else Returns (tabulate ysize xsize (fun y x =>
         pix im (nearest (shape_h im) ysize y) (nearest (shape_w im) xsize x))).

(** ** pixelate_region *)

(** [max(1, extent // pixel_size)]; the division raises for a zero
    divisor. *)
Definition downscaled (extent : nat) (pixel_size : Z) : outcome nat :=
  if (pixel_size =? 0)%Z then Raises ZeroDivisionError
  else Returns (Z.to_nat (Z.max 1 (Z.of_nat extent / pixel_size))).

(** The value of [downscaled] where it returns. *)
Definition reduced (extent : nat) (pixel_size : Z) : nat :=
  Z.to_nat (Z.max 1 (Z.of_nat extent / pixel_size)).

(** [Image.fromarray] and [np.array] carry the samples over unchanged, so
    the region, the image made of it and the array made of the result
    are one type here. *)
Definition pixelate_region (img_array : ndarray) (x1 y1 x2 y2 : Z)
    (pixel_size : Z) : outcome ndarray :=
  let region := getslice img_array y1 y2 x1 x2 in
  let height := shape_h region in
  let width := shape_w region in
  let* temp_height := downscaled height pixel_size in
  let* temp_width := downscaled width pixel_size in
  let region_img := region in
  let* small := resize region_img temp_width temp_height in
  let* pixelated := resize small width height in
  Returns (setslice img_array y1 y2 x1 x2 pixelated).

(** The loop of [process_image]: the regions in list order, each applied
    to the array the previous one returned. *)
Fixpoint pixelate_regions (img_array : ndarray) (regions : list rect)
    (pixel_size : Z) : outcome ndarray :=
  match regions with
  | [] => Returns img_array
  | (x1, y1, x2, y2) :: rest =>
      let* img_array := pixelate_region img_array x1 y1 x2 y2 pixel_size in
      pixelate_regions img_array rest pixel_size
  end.

End Pixelator.

Arguments ndarray A : clear implicits.
Arguments NDArray {A} _ _ _.

(** ** The buffer as an object *)

Section InPlace.

Context {A : Type} (zero : A).



End InPlace.


(** ** The script around the transform *)

Section Script.

Context {A : Type} (zero : A) {file : Type}.

(** [np.array(Image.open(path))] on the content of an existing file: the
    decoded buffer, or the decoder's exception. *)
Variable image_open : file -> outcome (ndarray A).

(** [Image.fromarray(a).save(path, quality=q)]: its result and the files
    it leaves behind. *)
Variable image_save :
  ndarray A -> string -> Z -> gmap string file -> outcome unit * gmap string file.

(** Python's [str(e)] for an exception. *)
Variable str : exn -> string.

(** What a run can observe and change: the files and the printed lines. *)
Record world : Type := World {
  files : gmap string file;
  stdout : list string
}.

Definition print (line : string) (w : world) : world :=
  World (files w) (stdout w ++ [line]).

Definition load (input_path : string) (w : world) : outcome (ndarray A) :=
  match files w !! input_path with
  | None => Raises FileNotFoundError
  | Some f => image_open f
  end.

Definition process_image (input_path output_path : string)
    (regions : list rect) (pixel_size : Z) (w : world) : outcome string * world :=
  match load input_path w with
  | Raises e => (Raises e, w)
  | Returns img_array =>
      match pixelate_regions zero img_array regions pixel_size with
      | Raises e => (Raises e, w)
      | Returns img_array =>
          let '(saved, fs) := image_save img_array output_path QUALITY (files w) in
          (let* _ := saved in Returns output_path, World fs (stdout w))
      end
  end.

(** [main]: the exit status of the process and the world it leaves. A
    normal return is status 0; [sys.exit(1)] is status 1. *)
Definition main (w : world) : Z * world :=
  if decide (files w !! INPUT_FILE = None) then
    (1%Z, print ("Error: Input file '" +:+ INPUT_FILE +:+ "' not found.") w)
  else
    let regions := [FROM_COLUMN; SUBJECT_COLUMN] in
    match process_image INPUT_FILE OUTPUT_FILE regions PIXEL_SIZE w with
    | (Returns output_path, w') =>
        (0%Z, print ("Successfully processed image: " +:+ output_path) w')
    | (Raises e, w') =>
        (1%Z, print ("Error processing image: " +:+ str e) w')
    end.

End Script.

Arguments world file : clear implicits.
Arguments World {file} _ _.

(** ** The transform in closed form *)

Section ClosedForm.

Context {A : Type} (zero : A).

(** The sample of the reduced grid that offset [k] of an extent reads
    back when the grid is scaled up again. *)
Definition cell (extent : nat) (pixel_size : Z) (k : nat) : nat :=
  nearest (reduced extent pixel_size) extent k.

(** The offset of the extent whose value ends up at offset [k]: the one
    the reduced sample [cell extent pixel_size k] was taken from. *)
Definition cell_source (extent : nat) (pixel_size : Z) (k : nat) : nat :=
  nearest extent (reduced extent pixel_size) (cell extent pixel_size k).

(** Position (y, x) lies in the half-open rectangle. *)
Definition inside (x1 y1 x2 y2 : Z) (y x : nat) : Prop :=
  (y1 <= Z.of_nat y < y2)%Z /\ (x1 <= Z.of_nat x < x2)%Z.

(** What [pixelate_region] leaves in the buffer when the rectangle
    selects a region that is not empty: in the region, every pixel is a
    copy of the source pixel of its cell; elsewhere, the pixel it was. *)
Definition blocks (img : ndarray A) (x1 y1 x2 y2 : Z) (pixel_size : Z) : ndarray A :=
  let '(ly, h) := slice_range (shape_h img) y1 y2 in
  let '(lx, w) := slice_range (shape_w img) x1 x2 in
  tabulate (shape_h img) (shape_w img) (fun y x =>
    if decide ((ly <= y < ly + h) /\ (lx <= x < lx + w))
    then pix zero img (ly + cell_source h pixel_size (y - ly))
                      (lx + cell_source w pixel_size (x - lx))
    else pix zero img y x).

(** The rectangle is within the buffer and not empty. *)
Definition valid_rect (img : ndarray A) (x1 y1 x2 y2 : Z) : Prop :=
  (0 <= x1 < x2)%Z /\ (x2 <= Z.of_nat (shape_w img))%Z /\
  (0 <= y1 < y2)%Z /\ (y2 <= Z.of_nat (shape_h img))%Z.

End ClosedForm.

(** ** Sample data *)

(** A one-row greyscale strip and a small greyscale grid. *)
Definition strip : ndarray Z := NDArray 1 7 [[10; 11; 12; 13; 14; 15; 16]%Z].

Definition grid : ndarray Z :=
  NDArray 3 4 [[10; 11; 12; 13]; [20; 21; 22; 23]; [30; 31; 32; 33]]%Z.

(** ** Tiles, cells and the processing order *)


(** Two positions of one cell of the reduced grid of the rectangle. *)
Definition same_cell (x1 y1 x2 y2 : Z) (pixel_size : Z) (y x y' x' : nat) : Prop :=
  cell (Z.to_nat (y2 - y1)) pixel_size (y - Z.to_nat y1) =
    cell (Z.to_nat (y2 - y1)) pixel_size (y' - Z.to_nat y1) /\
  cell (Z.to_nat (x2 - x1)) pixel_size (x - Z.to_nat x1) =
    cell (Z.to_nat (x2 - x1)) pixel_size (x' - Z.to_nat x1).

(** A disk that holds the grid as the input file. *)
Definition disk : gmap string (ndarray Z) := {[ INPUT_FILE := grid ]}.

(** The regions applied from left to right, each to the buffer the one
    before it returned: the processing order in the words of the
    specification. *)
Definition sequential_fold {A : Type} (zero : A) (pixel_size : Z)
    (img : ndarray A) (regions : list rect) : outcome (ndarray A) :=
  foldl (fun acc '(x1, y1, x2, y2) =>
           let* buffer := acc in
           pixelate_region zero buffer x1 y1 x2 y2 pixel_size)
        (Returns img) regions.

(** A stand-in for the image library in examples: a file holds a buffer
    as it is, opening reads it and saving stores it. *)
Definition raw_open (f : ndarray Z) : outcome (ndarray Z) := Returns f.

Definition raw_save (a : ndarray Z) (path : string) (quality : Z)
    (fs : gmap string (ndarray Z)) : outcome unit * gmap string (ndarray Z) :=
  (Returns tt, <[path := a]> fs).

Definition raw_str (e : exn) : string :=
  match e with
  | ZeroDivisionError => "division by zero"
  | ValueError => "height and width must be > 0"
  | FileNotFoundError => "No such file or directory"
  | UnidentifiedImageError => "cannot identify image file"
  | OSError => "cannot write file"
  | InvalidRegion => "invalid region"
  end.

(** A buffer 176 high and 896 wide whose pixels are their row numbers. *)
Definition tall : ndarray Z := tabulate 176 896 (fun y _ => Z.of_nat y).



(** A buffer large enough for the two configured regions, and a disk
    that holds it as the input file. *)
Definition wide : ndarray Z := tabulate 146 896 (fun y x => Z.of_nat (y + x)).

Definition wide_disk : gmap string (ndarray Z) := {[ INPUT_FILE := wide ]}.

(** ** Rectangles as slices *)

(** Position (y, x) is in the slice that a rectangle selects from an
    array of shape (h, w), whatever the signs and sizes of its
    coordinates. *)
Definition covers (h w : nat) (r : rect) (y x : nat) : Prop :=
  let '(x1, y1, x2, y2) := r in
  let '(ly, hy) := slice_range h y1 y2 in
  let '(lx, wx) := slice_range w x1 x2 in
  (ly <= y < ly + hy) /\ (lx <= x < lx + wx).

(** Two rectangles select no common position. *)
Definition disjoint (h w : nat) (r r' : rect) : Prop :=
  forall y x, ~ (covers h w r y x /\ covers h w r' y x).

(** * Properties *)

(** ** Lists: slices and splices *)

Section ListFacts.

Context {T : Type}.
Implicit Types l new old : list T.

Lemma lookup_sublist lo len l i :
  sublist lo len l !! i = if decide (i < len) then l !! (lo + i) else None.
Proof.
  unfold sublist. rewrite lookup_take. case_decide; [|done].
  by rewrite lookup_drop.
Qed.

Lemma length_sublist lo len l :
  lo + len <= length l -> length (sublist lo len l) = len.
Proof. intros. unfold sublist. rewrite length_take, length_drop. lia. Qed.

Lemma length_splice lo len new old :
  length new = len -> lo + len <= length old ->
  length (splice lo len new old) = length old.
Proof.
  intros. unfold splice.
  rewrite !length_app, length_take, length_drop. lia.
Qed.

Lemma lookup_splice lo len new old i :
  length new = len -> lo + len <= length old ->
  splice lo len new old !! i =
    if decide (lo <= i < lo + len) then new !! (i - lo) else old !! i.
Proof.
  intros Hn Hb. unfold splice.
  destruct (decide (i < lo)) as [Hlt|Hge].
  - rewrite lookup_app_l by (rewrite length_take; lia).
    rewrite lookup_take_lt by done. case_decide; [lia|done].
  - rewrite lookup_app_r by (rewrite length_take; lia).
    rewrite length_take, Nat.min_l by lia.
    destruct (decide (i < lo + len)) as [Hin|Hout].
    + rewrite lookup_app_l by lia. case_decide; [done|lia].
    + rewrite lookup_app_r by lia. rewrite lookup_drop.
      case_decide; [lia|]. f_equal. lia.
Qed.

Lemma splice_sublist lo len l : splice lo len (sublist lo len l) l = l.
Proof.
  unfold splice, sublist.
  rewrite <- (drop_drop l len lo).
  by rewrite (take_drop len (drop lo l)), take_drop.
Qed.

End ListFacts.

(** ** Arithmetic of the sampling maps *)

Lemma slice_range_bounds n start stop lo len :
  slice_range n start stop = (lo, len) -> lo + len <= n.
Proof.
  unfold slice_range, slice_bound. intros [= <- <-].
  repeat case_match; lia.
Qed.

Lemma slice_range_valid n start stop :
  (0 <= start <= stop)%Z -> (stop <= Z.of_nat n)%Z ->
  slice_range n start stop = (Z.to_nat start, Z.to_nat (stop - start)).
Proof.
  intros. unfold slice_range, slice_bound.
  repeat case_match; try lia. f_equal; lia.
Qed.


(** What [nearest] can be: the floor of the exact coordinate, or one
    lower on a tie under a scale that is no whole number. *)
Lemma nearest_cases n_in n_out i :
  nearest n_in n_out i = centre_sample n_in n_out i \/
  (((2 * i + 1) * n_in) mod (2 * n_out) = 0 /\ n_in mod n_out <> 0 /\
   nearest n_in n_out i = centre_sample n_in n_out i - 1).
Proof.
  unfold nearest, on_tie.
  destruct (((2 * i + 1) * n_in) mod (2 * n_out) =? 0) eqn:Etie;
    [|by left].
  destruct (n_in mod n_out =? 0) eqn:Escale; [by left|].
  destruct (stepped (scale n_in n_out) i <?
            float_of_nat (centre_sample n_in n_out i))%float; [|by left].
  right. apply Nat.eqb_eq in Etie. apply Nat.eqb_neq in Escale. done.
Qed.

Lemma nearest_off_tie n_in n_out i :
  ((2 * i + 1) * n_in) mod (2 * n_out) <> 0 ->
  nearest n_in n_out i = centre_sample n_in n_out i.
Proof. intros. destruct (nearest_cases n_in n_out i) as [|(? & _)]; done. Qed.

Lemma nearest_whole_scale n_in n_out i :
  n_in mod n_out = 0 ->
  nearest n_in n_out i = centre_sample n_in n_out i.
Proof. intros. destruct (nearest_cases n_in n_out i) as [|(_ & ? & _)]; done. Qed.

(** A value strictly between two neighbouring multiples of [2 n] is no
    tie and has the lower one as its quotient. *)
Lemma between_multiples n j v :
  2 * n * j < v -> v < 2 * n * S j ->
  v / (2 * n) = j /\ v mod (2 * n) <> 0.
Proof.
  intros Hlo Hhi.
  assert (v = 2 * n * j + (v - 2 * n * j)) as Hv by lia.
  assert (v - 2 * n * j < 2 * n) as Hr by lia.
  split.
  - symmetry. by apply (Nat.div_unique _ _ _ (v - 2 * n * j)).
  - rewrite <- (Nat.mod_unique v (2 * n) j (v - 2 * n * j)) by done. lia.
Qed.

Lemma nearest_lt n_in n_out i :
  0 < n_in -> i < n_out -> nearest n_in n_out i < n_in.
Proof.
  intros.
  assert (centre_sample n_in n_out i < n_in)
    by (unfold centre_sample; apply Nat.Div0.div_lt_upper_bound; nia).
  destruct (nearest_cases n_in n_out i) as [->|(_ & _ & ->)]; lia.
Qed.

Lemma nearest_same n i : 0 < n -> nearest n n i = i.
Proof.
  intros. rewrite nearest_whole_scale by apply Nat.Div0.mod_same.
  unfold centre_sample. symmetry.
  apply (Nat.div_unique _ _ _ n); lia.
Qed.


(** Up to 64 samples on either side, [nearest] is the truncation of the
    double that Pillow steps. *)
Lemma nearest_truncates_small n_in n_out i :
  1 <= n_in <= 64 -> 1 <= n_out <= 64 -> i < n_out ->
  truncates_to n_in n_out i (nearest n_in n_out i) = true.
Proof.
  intros Hin Hout Hi.
  assert (forallb (fun a => forallb (all_truncate a) (seq 1 64)) (seq 1 64)
          = true) as Hall by (vm_compute; reflexivity).
  rewrite forallb_forall in Hall.
  specialize (Hall n_in ltac:(apply in_seq; lia)).
  rewrite forallb_forall in Hall.
  specialize (Hall n_out ltac:(apply in_seq; lia)).
  unfold all_truncate in Hall. rewrite forallb_forall in Hall.
  apply Hall, in_seq. lia.
Qed.

(** So it is for the extents of the two configured regions on the image
    they were chosen for, at block size 15, down and up. *)
Lemma nearest_truncates_configured :
  all_truncate 255 17 && all_truncate 17 255 &&
  all_truncate 336 22 && all_truncate 22 336 &&
  all_truncate 1103 73 && all_truncate 73 1103 = true.
Proof. vm_compute. reflexivity. Qed.

(** Where the stepped double falls below a tie the index is one lower
    than in exact arithmetic: 2 samples scaled up to 7, at index 3, and
    28 scaled down to 5, at index 2. *)
Lemma nearest_up_2_7 : nearest 2 7 <$> seq 0 7 = [0; 0; 0; 0; 1; 1; 1].
Proof. vm_compute. reflexivity. Qed.

Lemma nearest_down_28_5 : nearest 28 5 <$> seq 0 5 = [2; 8; 13; 19; 25].
Proof. vm_compute. reflexivity. Qed.

Lemma nearest_31_2 :
  nearest 31 2 <$> seq 0 2 = [7; 23] /\ nearest 2 31 15 = 0.
Proof. vm_compute. done. Qed.

Lemma reduced_pos n b : 1 <= reduced n b.
Proof. unfold reduced. lia. Qed.

Lemma reduced_le n b : 1 <= n -> reduced n b <= n.
Proof.
  intros. unfold reduced.
  assert (Z.of_nat n / b <= Z.of_nat n)%Z; [|lia].
  Z.div_mod_to_equations. nia.
Qed.

Lemma reduced_one n : 1 <= n -> reduced n 1 = n.
Proof. intros. unfold reduced. rewrite Z.div_1_r. lia. Qed.

Lemma reduced_small n b : (Z.of_nat n < b)%Z -> reduced n b = 1.
Proof.
  intros. unfold reduced. rewrite Z.div_small by lia. reflexivity.
Qed.

Lemma cell_lt n b k : k < n -> cell n b k < reduced n b.
Proof. intros. apply nearest_lt; [apply reduced_pos|done]. Qed.

Lemma cell_source_lt n b k : k < n -> cell_source n b k < n.
Proof. intros. apply nearest_lt; [lia|by apply cell_lt]. Qed.



Lemma cell_source_one n k : k < n -> cell_source n 1 k = k.
Proof.
  intros. unfold cell_source, cell.
  rewrite reduced_one by lia. by rewrite !nearest_same by lia.
Qed.

Lemma cell_small n b k : (Z.of_nat n < b)%Z -> k < n -> cell n b k = 0.
Proof.
  intros. unfold cell. rewrite reduced_small by done.
  rewrite nearest_off_tie by (rewrite Nat.mod_small; lia).
  unfold centre_sample. apply Nat.div_small. lia.
Qed.

Lemma cell_divisible n b k :
  (0 < b)%Z -> (Z.of_nat n mod b = 0)%Z -> k < n ->
  cell n b k = k / Z.to_nat b.
Proof.
  intros Hb Hmod Hk. unfold cell, reduced.
  apply Z.mod_divide in Hmod as [q Hq]; [|lia].
  rewrite Hq, Z.div_mul by lia.
  assert (1 <= q)%Z by nia.
  rewrite Z.max_r by lia.
  set (c := Z.to_nat b). set (t := Z.to_nat q).
  assert (n = t * c) as -> by (unfold t, c; nia).
  assert (0 < c) by (unfold c; lia).
  assert (0 < t) by (unfold t; lia).
  pose proof (Nat.mod_upper_bound k c).
  pose proof (Nat.div_mod_eq k c).
  assert (2 * (t * c) * (k / c) < (2 * k + 1) * t) by nia.
  assert ((2 * k + 1) * t < 2 * (t * c) * S (k / c)) by nia.
  destruct (between_multiples (t * c) (k / c) ((2 * k + 1) * t))
    as [Hdiv Hmod]; [done|done|].
  by rewrite nearest_off_tie.
Qed.

(** ** Arrays: reads of the pieces of the transform *)

Section ArrayFacts.

Context {A : Type} (zero : A).
Implicit Types a v im : ndarray A.
Implicit Types f g : nat -> nat -> A.

Lemma pixel_tabulate h w f y x :
  pixel (tabulate h w f) y x =
    if decide (y < h /\ x < w) then Some (f y x) else None.
Proof.
  unfold pixel, tabulate. simpl. rewrite list_lookup_fmap.
  destruct (decide (y < h)) as [Hy|Hy].
  - rewrite lookup_seq_lt by done. simpl. rewrite list_lookup_fmap.
    destruct (decide (x < w)) as [Hx|Hx].
    + rewrite lookup_seq_lt by done. simpl. case_decide; [done|lia].
    + rewrite lookup_seq_ge by lia. simpl. case_decide; [lia|done].
  - rewrite lookup_seq_ge by lia. simpl. case_decide; [lia|done].
Qed.

Lemma well_shaped_tabulate h w f : well_shaped (tabulate h w f).
Proof.
  split; simpl.
  - by rewrite length_fmap, length_seq.
  - apply Forall_fmap, Forall_forall. intros y _. simpl.
    by rewrite length_fmap, length_seq.
Qed.

Lemma pixel_Some a y x :
  well_shaped a -> y < shape_h a -> x < shape_w a ->
  pixel a y x = Some (pix zero a y x).
Proof.
  intros [Hh Hw] Hy Hx. unfold pix, pixel.
  destruct (rows a !! y) as [r|] eqn:Hr.
  - simpl. rewrite Forall_lookup in Hw. specialize (Hw _ _ Hr).
    destruct (lookup_lt_is_Some_2 r x) as [p Hp]; [lia|].
    by rewrite Hp.
  - apply lookup_ge_None in Hr. lia.
Qed.

Lemma pixel_None a y x :
  well_shaped a -> ~ (y < shape_h a /\ x < shape_w a) -> pixel a y x = None.
Proof.
  intros [Hh Hw] Hn. unfold pixel.
  destruct (rows a !! y) as [r|] eqn:Hr; [|done]. simpl.
  rewrite Forall_lookup in Hw. specialize (Hw _ _ Hr).
  apply lookup_ge_None. apply lookup_lt_Some in Hr. lia.
Qed.

(** Two well-shaped arrays of one shape with the same pixels are equal. *)
Lemma ndarray_ext a v :
  well_shaped a -> well_shaped v ->
  shape_h a = shape_h v -> shape_w a = shape_w v ->
  (forall y x, y < shape_h a -> x < shape_w a -> pixel a y x = pixel v y x) ->
  a = v.
Proof.
  destruct a as [h w ra], v as [h' w' rv].
  intros [Hh Hw] [Hh' Hw']; simpl in *. intros <- <- Hpx.
  f_equal. apply list_eq. intros y.
  destruct (decide (y < h)) as [Hy|Hy].
  - destruct (lookup_lt_is_Some_2 ra y) as [r Hr]; [lia|].
    destruct (lookup_lt_is_Some_2 rv y) as [r' Hr']; [lia|].
    rewrite Hr, Hr'. f_equal.
    rewrite Forall_lookup in Hw, Hw'.
    pose proof (Hw _ _ Hr). pose proof (Hw' _ _ Hr').
    apply list_eq. intros x.
    destruct (decide (x < w)) as [Hx|Hx].
    + specialize (Hpx y x Hy Hx). unfold pixel in Hpx; simpl in Hpx.
      by rewrite Hr, Hr' in Hpx.
    + rewrite !(lookup_ge_None_2 _ x) by lia. done.
  - rewrite !(lookup_ge_None_2 _ y) by lia. done.
Qed.


Lemma pix_tabulate h w f y x :
  y < h -> x < w -> pix zero (tabulate h w f) y x = f y x.
Proof.
  intros. unfold pix. rewrite pixel_tabulate. case_decide; [done|lia].
Qed.

(** *** Reading a slice *)

Lemma well_shaped_getslice a y1 y2 x1 x2 :
  well_shaped a -> well_shaped (getslice a y1 y2 x1 x2).
Proof.
  intros [Hh Hw]. unfold getslice.
  destruct (slice_range (shape_h a) y1 y2) as [ly h] eqn:Ey.
  destruct (slice_range (shape_w a) x1 x2) as [lx w] eqn:Ex.
  apply slice_range_bounds in Ey, Ex.
  split; simpl.
  - rewrite length_fmap. apply length_sublist. lia.
  - apply Forall_fmap, Forall_lookup. intros i r Hr. simpl.
    rewrite lookup_sublist in Hr. case_decide; [|done].
    rewrite Forall_lookup in Hw. specialize (Hw _ _ Hr).
    apply length_sublist. lia.
Qed.

Lemma pixel_getslice a y1 y2 x1 x2 ly h lx w y x :
  slice_range (shape_h a) y1 y2 = (ly, h) ->
  slice_range (shape_w a) x1 x2 = (lx, w) ->
  pixel (getslice a y1 y2 x1 x2) y x =
    if decide (y < h /\ x < w) then pixel a (ly + y) (lx + x) else None.
Proof.
  intros Ey Ex. unfold getslice. rewrite Ey, Ex. unfold pixel. simpl.
  rewrite list_lookup_fmap, lookup_sublist.
  destruct (decide (y < h)) as [Hy|Hy].
  - destruct (rows a !! (ly + y)) as [r|]; simpl.
    + rewrite lookup_sublist. repeat case_decide; try done; lia.
    + by case_decide.
  - simpl. case_decide; [lia|done].
Qed.

Lemma shape_getslice a y1 y2 x1 x2 ly h lx w :
  slice_range (shape_h a) y1 y2 = (ly, h) ->
  slice_range (shape_w a) x1 x2 = (lx, w) ->
  shape_h (getslice a y1 y2 x1 x2) = h /\
  shape_w (getslice a y1 y2 x1 x2) = w.
Proof. intros Ey Ex. unfold getslice. by rewrite Ey, Ex. Qed.

(** *** Resizing *)

Lemma resize_returns im xsize ysize :
  well_shaped im -> 1 <= xsize -> 1 <= ysize ->
  resize zero im xsize ysize =
    Returns (tabulate ysize xsize (fun y x =>
      pix zero im (nearest (shape_h im) ysize y) (nearest (shape_w im) xsize x))).
Proof.
  intros Him Hx Hy. unfold resize.
  destruct ((xsize =? shape_w im) && (ysize =? shape_h im)) eqn:Esame.
  - apply andb_true_iff in Esame as [->%Nat.eqb_eq ->%Nat.eqb_eq].
    f_equal. apply ndarray_ext; try done; [apply well_shaped_tabulate|].
    intros y x Hyh Hxw. rewrite pixel_tabulate.
    case_decide; [|lia].
    rewrite !nearest_same by lia. by apply pixel_Some.
  - destruct (xsize <? 1) eqn:E1; [apply Nat.ltb_lt in E1; lia|].
    destruct (ysize <? 1) eqn:E2; [apply Nat.ltb_lt in E2; lia|].
    done.
Qed.

Lemma resize_other_size im xsize ysize :
  xsize <> shape_w im \/ ysize <> shape_h im -> 1 <= xsize -> 1 <= ysize ->
  resize zero im xsize ysize =
    Returns (tabulate ysize xsize (fun y x =>
      pix zero im (nearest (shape_h im) ysize y) (nearest (shape_w im) xsize x))).
Proof.
  intros Hne Hx Hy. unfold resize.
  replace ((xsize =? shape_w im) && (ysize =? shape_h im)) with false.
  2:{ symmetry. apply andb_false_iff.
      destruct Hne; [left|right]; by apply Nat.eqb_neq. }
  replace ((xsize <? 1) || (ysize <? 1)) with false; [done|].
  symmetry. apply orb_false_iff. split; apply Nat.ltb_ge; lia.
Qed.

Lemma resize_refused im xsize ysize :
  1 <= shape_w im -> 1 <= shape_h im -> xsize = 0 \/ ysize = 0 ->
  resize zero im xsize ysize = Raises ValueError.
Proof.
  intros Hw Hh Hz. unfold resize.
  destruct ((xsize =? shape_w im) && (ysize =? shape_h im)) eqn:Esame.
  - apply andb_true_iff in Esame as [?%Nat.eqb_eq ?%Nat.eqb_eq]. lia.
  - destruct Hz as [-> | ->]; simpl; [done|].
    by rewrite orb_true_r.
Qed.

(** *** Writing a slice *)

Lemma shape_setslice a v y1 y2 x1 x2 :
  shape_h (setslice a y1 y2 x1 x2 v) = shape_h a /\
  shape_w (setslice a y1 y2 x1 x2 v) = shape_w a.
Proof.
  unfold setslice.
  by destruct (slice_range _ y1 y2), (slice_range _ x1 x2).
Qed.

Lemma well_shaped_setslice a v y1 y2 x1 x2 ly h lx w :
  slice_range (shape_h a) y1 y2 = (ly, h) ->
  slice_range (shape_w a) x1 x2 = (lx, w) ->
  well_shaped a -> well_shaped v -> shape_h v = h -> shape_w v = w ->
  well_shaped (setslice a y1 y2 x1 x2 v).
Proof.
  intros Ey Ex [Hh Hw] [Hvh Hvw] Eh Ew. unfold setslice. rewrite Ey, Ex.
  apply slice_range_bounds in Ey, Ex.
  assert (length (zip_with (fun new old : list A => splice lx w new old)
            (rows v) (sublist ly h (rows a))) = h) as Hz.
  { rewrite length_zip_with, length_sublist by lia. lia. }
  split; simpl.
  - rewrite length_splice; [done|done|lia].
  - apply Forall_lookup. intros y r Hr.
    rewrite lookup_splice in Hr; [|done|lia].
    rewrite Forall_lookup in Hw, Hvw.
    case_decide as Hin; [|by eapply Hw].
    apply lookup_zip_with_Some in Hr as (new & old & -> & Hnew & Hold).
    rewrite lookup_sublist in Hold. case_decide; [|done].
    rewrite length_splice; [by eapply Hw| |].
    + rewrite (Hvw _ _ Hnew). lia.
    + rewrite (Hw _ _ Hold). lia.
Qed.

Lemma pixel_setslice a v y1 y2 x1 x2 ly h lx w y x :
  slice_range (shape_h a) y1 y2 = (ly, h) ->
  slice_range (shape_w a) x1 x2 = (lx, w) ->
  well_shaped a -> well_shaped v -> shape_h v = h -> shape_w v = w ->
  pixel (setslice a y1 y2 x1 x2 v) y x =
    if decide ((ly <= y < ly + h) /\ (lx <= x < lx + w))
    then pixel v (y - ly) (x - lx)
    else pixel a y x.
Proof.
  intros Ey Ex [Hh Hw] [Hvh Hvw] Eh Ew. unfold setslice. rewrite Ey, Ex.
  apply slice_range_bounds in Ey, Ex.
  assert (length (zip_with (fun new old : list A => splice lx w new old)
            (rows v) (sublist ly h (rows a))) = h) as Hz.
  { rewrite length_zip_with, length_sublist by lia. lia. }
  unfold pixel. simpl.
  rewrite lookup_splice; [|done|lia].
  rewrite Forall_lookup in Hw, Hvw.
  destruct (decide (ly <= y < ly + h)) as [Hy|Hy].
  - rewrite lookup_zip_with, lookup_sublist.
    rewrite decide_True by lia.
    replace (ly + (y - ly)) with y by lia.
    destruct (lookup_lt_is_Some_2 (rows v) (y - ly)) as [new Hnew]; [lia|].
    destruct (lookup_lt_is_Some_2 (rows a) y) as [old Hold]; [lia|].
    rewrite Hnew, Hold. simpl.
    rewrite lookup_splice.
    + repeat case_decide; try done; lia.
    + rewrite (Hvw _ _ Hnew). lia.
    + rewrite (Hw _ _ Hold). lia.
  - rewrite decide_False by lia. done.
Qed.

End ArrayFacts.

(** ** The transform *)

Section TransformFacts.

Context {A : Type} (zero : A).
Implicit Types img : ndarray A.

Lemma downscaled_returns n b :
  b <> 0%Z -> downscaled n b = Returns (reduced n b).
Proof.
  intros Hb. unfold downscaled.
  destruct (b =? 0)%Z eqn:E; [apply Z.eqb_eq in E; done|done].
Qed.

Lemma well_shaped_blocks img x1 y1 x2 y2 b :
  well_shaped (blocks zero img x1 y1 x2 y2 b) /\
  shape_h (blocks zero img x1 y1 x2 y2 b) = shape_h img /\
  shape_w (blocks zero img x1 y1 x2 y2 b) = shape_w img.
Proof.
  unfold blocks.
  destruct (slice_range (shape_h img) y1 y2), (slice_range (shape_w img) x1 x2).
  split; [apply well_shaped_tabulate|done].
Qed.

Lemma pix_getslice img y1 y2 x1 x2 ly h lx w y x :
  slice_range (shape_h img) y1 y2 = (ly, h) ->
  slice_range (shape_w img) x1 x2 = (lx, w) ->
  y < h -> x < w ->
  pix zero (getslice img y1 y2 x1 x2) y x = pix zero img (ly + y) (lx + x).
Proof.
  intros Ey Ex Hy Hx. unfold pix.
  rewrite (pixel_getslice _ _ _ _ _ _ _ _ _ _ _ Ey Ex).
  case_decide; [done|lia].
Qed.

(** For a region that is not empty and a block size other than zero,
    [pixelate_region] returns, and returns [blocks]. *)
Lemma pixelate_region_blocks img x1 y1 x2 y2 b ly h lx w :
  well_shaped img -> b <> 0%Z ->
  slice_range (shape_h img) y1 y2 = (ly, h) ->
  slice_range (shape_w img) x1 x2 = (lx, w) ->
  1 <= h -> 1 <= w ->
  pixelate_region zero img x1 y1 x2 y2 b =
    Returns (blocks zero img x1 y1 x2 y2 b).
Proof.
  intros Himg Hb Ey Ex Hh Hw. unfold pixelate_region. cbv zeta.
  destruct (shape_getslice img y1 y2 x1 x2 _ _ _ _ Ey Ex) as [Sh Sw].
  pose proof (well_shaped_getslice img y1 y2 x1 x2 Himg) as Hreg.
  rewrite Sh, Sw, !downscaled_returns by done. cbn [bind].
  pose proof (reduced_pos h b) as Hth. pose proof (reduced_pos w b) as Htw.
  rewrite (resize_returns zero _ _ _ Hreg Htw Hth). cbn [bind].
  rewrite (resize_returns zero _ _ _ (well_shaped_tabulate _ _ _) Hw Hh).
  cbn [bind tabulate shape_h shape_w]. rewrite Sh, Sw. f_equal.
  destruct (well_shaped_blocks img x1 y1 x2 y2 b) as (Hwb & Ehb & Ewb).
  match goal with |- setslice _ _ _ _ _ ?v = _ => set (pixelated := v) end.
  destruct (shape_setslice img pixelated y1 y2 x1 x2) as [Eh Ew].
  apply ndarray_ext; try done; try congruence.
  - eapply well_shaped_setslice; eauto using well_shaped_tabulate.
  - rewrite Eh, Ew. intros y x Hy Hx.
    rewrite (pixel_setslice _ _ _ _ _ _ _ _ _ _ _ _ Ey Ex)
      by eauto using well_shaped_tabulate.
    unfold blocks. rewrite Ey, Ex. unfold pixelated. rewrite !pixel_tabulate.
    rewrite (decide_True (P := y < shape_h img /\ x < shape_w img)) by done.
    case_decide as Hin; [|by apply pixel_Some].
    rewrite decide_True by lia. f_equal.
    rewrite pix_tabulate by (apply nearest_lt; lia).
    rewrite (pix_getslice _ _ _ _ _ _ _ _ _ _ _ Ey Ex)
      by (apply nearest_lt; [lia|]; apply nearest_lt; lia).
    done.
Qed.

(** A region with no row or no column: the second resize is refused. *)
Lemma pixelate_region_empty img x1 y1 x2 y2 b ly h lx w :
  b <> 0%Z ->
  slice_range (shape_h img) y1 y2 = (ly, h) ->
  slice_range (shape_w img) x1 x2 = (lx, w) ->
  h = 0 \/ w = 0 ->
  pixelate_region zero img x1 y1 x2 y2 b = Raises ValueError.
Proof.
  intros Hb Ey Ex Hz. unfold pixelate_region. cbv zeta.
  destruct (shape_getslice img y1 y2 x1 x2 _ _ _ _ Ey Ex) as [Sh Sw].
  rewrite Sh, Sw, !downscaled_returns by done. cbn [bind].
  pose proof (reduced_pos h b) as Hth. pose proof (reduced_pos w b) as Htw.
  rewrite resize_other_size by lia. cbn [bind].
  rewrite resize_refused; [done|simpl; lia|simpl; lia|lia].
Qed.

Lemma pixelate_region_zero_division img x1 y1 x2 y2 :
  pixelate_region zero img x1 y1 x2 y2 0 = Raises ZeroDivisionError.
Proof. reflexivity. Qed.

Lemma pixel_blocks img x1 y1 x2 y2 b ly h lx w y x :
  slice_range (shape_h img) y1 y2 = (ly, h) ->
  slice_range (shape_w img) x1 x2 = (lx, w) ->
  y < shape_h img -> x < shape_w img ->
  pixel (blocks zero img x1 y1 x2 y2 b) y x =
    Some (if decide ((ly <= y < ly + h) /\ (lx <= x < lx + w))
          then pix zero img (ly + cell_source h b (y - ly))
                            (lx + cell_source w b (x - lx))
          else pix zero img y x).
Proof.
  intros Ey Ex Hy Hx. unfold blocks. rewrite Ey, Ex, pixel_tabulate.
  by rewrite decide_True.
Qed.

Lemma pix_blocks img x1 y1 x2 y2 b ly h lx w y x :
  slice_range (shape_h img) y1 y2 = (ly, h) ->
  slice_range (shape_w img) x1 x2 = (lx, w) ->
  y < shape_h img -> x < shape_w img ->
  pix zero (blocks zero img x1 y1 x2 y2 b) y x =
    if decide ((ly <= y < ly + h) /\ (lx <= x < lx + w))
    then pix zero img (ly + cell_source h b (y - ly))
                      (lx + cell_source w b (x - lx))
    else pix zero img y x.
Proof.
  intros Ey Ex Hy Hx. unfold pix at 1.
  by rewrite (pixel_blocks _ _ _ _ _ _ _ _ _ _ _ _ Ey Ex Hy Hx).
Qed.


(** With block size 1 every pixel is its own cell. *)
Lemma blocks_one img x1 y1 x2 y2 :
  well_shaped img -> blocks zero img x1 y1 x2 y2 1 = img.
Proof.
  intros Himg.
  destruct (well_shaped_blocks img x1 y1 x2 y2 1) as (Hwb & Ehb & Ewb).
  destruct (slice_range (shape_h img) y1 y2) as [ly h] eqn:Ey.
  destruct (slice_range (shape_w img) x1 x2) as [lx w] eqn:Ex.
  apply ndarray_ext; try done.
  rewrite Ehb, Ewb. intros y x Hy Hx.
  rewrite (pixel_blocks _ _ _ _ _ _ _ _ _ _ _ _ Ey Ex Hy Hx).
  rewrite (pixel_Some zero img y x) by done. f_equal.
  case_decide as Hin; [|done].
  rewrite !cell_source_one by lia. f_equal; lia.
Qed.

Lemma valid_rect_slices img x1 y1 x2 y2 :
  valid_rect img x1 y1 x2 y2 ->
  slice_range (shape_h img) y1 y2 = (Z.to_nat y1, Z.to_nat (y2 - y1)) /\
  slice_range (shape_w img) x1 x2 = (Z.to_nat x1, Z.to_nat (x2 - x1)) /\
  1 <= Z.to_nat (y2 - y1) /\ 1 <= Z.to_nat (x2 - x1).
Proof.
  intros (Hx1 & Hx2 & Hy1 & Hy2).
  rewrite !slice_range_valid by lia. repeat split; lia.
Qed.

Lemma pixelate_region_valid img x1 y1 x2 y2 b :
  well_shaped img -> valid_rect img x1 y1 x2 y2 -> b <> 0%Z ->
  pixelate_region zero img x1 y1 x2 y2 b =
    Returns (blocks zero img x1 y1 x2 y2 b).
Proof.
  intros Himg Hv Hb.
  destruct (valid_rect_slices _ _ _ _ _ Hv) as (Ey & Ex & Hh & Hw).
  by eapply pixelate_region_blocks.
Qed.

Lemma inside_range x1 y1 x2 y2 y x :
  (0 <= x1)%Z -> (0 <= y1)%Z ->
  inside x1 y1 x2 y2 y x <->
  (Z.to_nat y1 <= y < Z.to_nat y1 + Z.to_nat (y2 - y1)) /\
  (Z.to_nat x1 <= x < Z.to_nat x1 + Z.to_nat (x2 - x1)).
Proof. unfold inside. lia. Qed.

End TransformFacts.

(** ** Properties of pixelate_region *)

Section Claims.

Context {A : Type} (zero : A).
Implicit Types img : ndarray A.


(** C2. For a rectangle within the buffer with x1 < x2 and y1 < y2 and a
    block size of at least 1, pixelate_region returns a buffer of the
    same shape in which every position outside the rectangle holds the
    pixel it held before. *)
Theorem pixelate_region_frame img x1 y1 x2 y2 b :
  well_shaped img -> valid_rect img x1 y1 x2 y2 -> (1 <= b)%Z ->
  exists img',
    pixelate_region zero img x1 y1 x2 y2 b = Returns img' /\
    shape_h img' = shape_h img /\ shape_w img' = shape_w img /\
    forall y x, ~ inside x1 y1 x2 y2 y x -> pixel img' y x = pixel img y x.
Proof.
  intros Himg Hv Hb.
  destruct (well_shaped_blocks zero img x1 y1 x2 y2 b) as (Hwb & Ehb & Ewb).
  exists (blocks zero img x1 y1 x2 y2 b). split; [|split; [done|split; [done|]]].
  - apply pixelate_region_valid; [done|done|lia].
  - intros y x Hout.
    destruct (valid_rect_slices _ _ _ _ _ Hv) as (Ey & Ex & _ & _).
    destruct (decide (y < shape_h img /\ x < shape_w img)) as [[Hy Hx]|Hoff].
    + rewrite (pixel_blocks _ _ _ _ _ _ _ _ _ _ _ _ _ Ey Ex Hy Hx).
      rewrite (pixel_Some zero img y x) by done. f_equal.
      case_decide as Hin; [|done].
      destruct Hv as (? & ? & ? & ?).
      exfalso. apply Hout. unfold inside. lia.
    + by rewrite !pixel_None by (rewrite ?Ehb, ?Ewb; done).
Qed.

Lemma blocks_inside img x1 y1 x2 y2 b y x :
  valid_rect img x1 y1 x2 y2 -> inside x1 y1 x2 y2 y x ->
  pixel (blocks zero img x1 y1 x2 y2 b) y x =
    Some (pix zero img
            (Z.to_nat y1 + cell_source (Z.to_nat (y2 - y1)) b (y - Z.to_nat y1))
            (Z.to_nat x1 + cell_source (Z.to_nat (x2 - x1)) b (x - Z.to_nat x1))).
Proof.
  intros Hv Hin.
  destruct (valid_rect_slices _ _ _ _ _ Hv) as (Ey & Ex & Hh & Hw).
  destruct Hv as (Hx1 & Hx2 & Hy1 & Hy2). unfold inside in Hin.
  rewrite (pixel_blocks _ _ _ _ _ _ _ _ _ _ _ _ _ Ey Ex) by lia.
  by rewrite decide_True by lia.
Qed.

Lemma blocks_same_cell img x1 y1 x2 y2 b y x y' x' :
  valid_rect img x1 y1 x2 y2 ->
  inside x1 y1 x2 y2 y x -> inside x1 y1 x2 y2 y' x' ->
  same_cell x1 y1 x2 y2 b y x y' x' ->
  pixel (blocks zero img x1 y1 x2 y2 b) y x =
  pixel (blocks zero img x1 y1 x2 y2 b) y' x'.
Proof.
  intros Hv Hin Hin' [Hcy Hcx].
  rewrite !blocks_inside by done. unfold cell_source. by rewrite Hcy, Hcx.
Qed.


(** C4. For a rectangle within the buffer with x1 < x2 and y1 < y2 and a
    block size of at least 1, pixelate_region returns; where the width
    of the rectangle is below the block size the reduced width is 1 and
    each row of the rectangle holds one value, and where the height is
    below the block size the reduced height is 1 and each column of the
    rectangle holds one value. *)
Theorem pixelate_region_small_extent img x1 y1 x2 y2 b :
  well_shaped img -> valid_rect img x1 y1 x2 y2 -> (1 <= b)%Z ->
  exists img',
    pixelate_region zero img x1 y1 x2 y2 b = Returns img' /\
    ((x2 - x1 < b)%Z ->
       downscaled (shape_w (getslice img y1 y2 x1 x2)) b = Returns 1 /\
       forall y x x',
         inside x1 y1 x2 y2 y x -> inside x1 y1 x2 y2 y x' ->
         pixel img' y x = pixel img' y x') /\
    ((y2 - y1 < b)%Z ->
       downscaled (shape_h (getslice img y1 y2 x1 x2)) b = Returns 1 /\
       forall y y' x,
         inside x1 y1 x2 y2 y x -> inside x1 y1 x2 y2 y' x ->
         pixel img' y x = pixel img' y' x).
Proof.
  intros Himg Hv Hb.
  destruct (valid_rect_slices _ _ _ _ _ Hv) as (Ey & Ex & Hh & Hw).
  destruct (shape_getslice img y1 y2 x1 x2 _ _ _ _ Ey Ex) as [Sh Sw].
  pose proof Hv as (Hx1 & Hx2 & Hy1 & Hy2).
  exists (blocks zero img x1 y1 x2 y2 b).
  split; [apply pixelate_region_valid; [done|done|lia]|].
  split; intros Hsmall; split.
  - rewrite Sw, downscaled_returns by lia. f_equal.
    apply reduced_small. lia.
  - intros y x x' Hin Hin'. apply blocks_same_cell; try done.
    split; [done|]. unfold inside in *.
    rewrite !cell_small by lia. done.
  - rewrite Sh, downscaled_returns by lia. f_equal.
    apply reduced_small. lia.
  - intros y y' x Hin Hin'. apply blocks_same_cell; try done.
    split; [|done]. unfold inside in *.
    rewrite !cell_small by lia. done.
Qed.

(** C5. For a rectangle within the buffer with x1 < x2 and y1 < y2,
    pixelate_region with block size 1 returns the buffer it was given. *)
Theorem pixelate_region_block_size_one img x1 y1 x2 y2 :
  well_shaped img -> valid_rect img x1 y1 x2 y2 ->
  pixelate_region zero img x1 y1 x2 y2 1 = Returns img.
Proof.
  intros Himg Hv.
  rewrite pixelate_region_valid by done. f_equal. by apply blocks_one.
Qed.



End Claims.

(** ** Properties of process_image and main *)

Section ScriptClaims.

Context {A : Type} (zero : A) {file : Type}.
Variable image_open : file -> outcome (ndarray A).
Variable image_save :
  ndarray A -> string -> Z -> gmap string file -> outcome unit * gmap string file.
Variable str : exn -> string.
Implicit Types w : world file.
Implicit Types img : ndarray A.

Lemma sequential_fold_raises (b : Z) e (regions : list rect) :
  foldl (fun acc '(x1, y1, x2, y2) =>
           let* buffer := acc in
           pixelate_region zero buffer x1 y1 x2 y2 b)
        (Raises e) regions = Raises e.
Proof. induction regions as [|[[[x1 y1] x2] y2] rest IH]; [done|]. apply IH. Qed.

Lemma pixelate_regions_fold img regions b :
  pixelate_regions zero img regions b = sequential_fold zero b img regions.
Proof.
  unfold sequential_fold. revert img.
  induction regions as [|[[[x1 y1] x2] y2] rest IH]; intros img; [done|].
  simpl. destruct (pixelate_region zero img x1 y1 x2 y2 b) as [img'|e]; simpl.
  - apply IH.
  - by rewrite sequential_fold_raises.
Qed.

Lemma sequential_fold_snoc img rs x1 y1 x2 y2 b :
  sequential_fold zero b img (rs ++ [(x1, y1, x2, y2)]) =
    let* buffer := sequential_fold zero b img rs in
    pixelate_region zero buffer x1 y1 x2 y2 b.
Proof. unfold sequential_fold. by rewrite foldl_app. Qed.

Lemma pixelate_region_raises_only img x1 y1 x2 y2 b e :
  pixelate_region zero img x1 y1 x2 y2 b = Raises e ->
  e = ZeroDivisionError \/ e = ValueError.
Proof.
  unfold pixelate_region, downscaled, resize.
  repeat (case_match; simpl); intros [= <-]; auto.
Qed.

Lemma pixelate_regions_degenerate img before after x1 y1 x2 y2 b :
  (0 <= x2 <= x1)%Z \/ (0 <= y2 <= y1)%Z ->
  exists e, (e = ZeroDivisionError \/ e = ValueError) /\
    pixelate_regions zero img (before ++ (x1, y1, x2, y2) :: after) b = Raises e.
Proof.
  intros Hdeg. revert img.
  induction before as [|[[[a1 b1] a2] b2] before IH]; intros img; simpl.
  - destruct (decide (b = 0%Z)) as [->|Hb].
    + exists ZeroDivisionError. split; [by left|done].
    + exists ValueError. split; [by right|].
      rewrite (pixelate_region_empty zero img x1 y1 x2 y2 b
                 (slice_bound (shape_h img) y1)
                 (slice_bound (shape_h img) y2 - slice_bound (shape_h img) y1)
                 (slice_bound (shape_w img) x1)
                 (slice_bound (shape_w img) x2 - slice_bound (shape_w img) x1));
        try done.
      unfold slice_bound. repeat case_match; lia.
  - destruct (pixelate_region zero img a1 b1 a2 b2 b) as [img'|e] eqn:E; simpl.
    + apply IH.
    + exists e. split; [|done]. by eapply pixelate_region_raises_only.
Qed.

(** C6, as the code has it. For a rectangle with coordinates from 0 on
    and x2 <= x1 or y2 <= y1, and a block size other than zero,
    pixelate_region makes no check of its own: the region it slices is
    empty and the call fails with the ValueError of the image library's
    resize. process_image, given such a rectangle anywhere in its list,
    fails with an exception and leaves the files as they were. *)
Theorem degenerate_region_fails_in_resize img x1 y1 x2 y2 b :
  (0 <= x2 <= x1)%Z \/ (0 <= y2 <= y1)%Z -> b <> 0%Z ->
  pixelate_region zero img x1 y1 x2 y2 b = Raises ValueError /\
  forall input_path output_path before after w,
    exists e,
      process_image zero image_open image_save input_path output_path
        (before ++ (x1, y1, x2, y2) :: after) b w = (Raises e, w).
Proof.
  intros Hdeg Hb. split.
  - rewrite (pixelate_region_empty zero img x1 y1 x2 y2 b
               (slice_bound (shape_h img) y1)
               (slice_bound (shape_h img) y2 - slice_bound (shape_h img) y1)
               (slice_bound (shape_w img) x1)
               (slice_bound (shape_w img) x2 - slice_bound (shape_w img) x1));
      try done.
    unfold slice_bound. repeat case_match; lia.
  - intros input_path output_path before after w. unfold process_image.
    destruct (load image_open input_path w) as [img0|e]; [|by exists e].
    destruct (pixelate_regions_degenerate img0 before after x1 y1 x2 y2 b Hdeg)
      as (e & _ & ->).
    by exists e.
Qed.

(** C7. When the input file does not exist, main ends with status 1,
    prints the line saying that the input file was not found, and leaves
    the files as they were. *)
Theorem main_input_missing w :
  files w !! INPUT_FILE = None ->
  main zero image_open image_save str w =
    (1%Z, World (files w)
            (stdout w ++ ["Error: Input file 'email.jpg' not found."])) /\
  fst (main zero image_open image_save str w) <> 0%Z /\
  files (snd (main zero image_open image_save str w)) = files w.
Proof.
  intros Hmissing. unfold main.
  rewrite decide_True by done. simpl. repeat split; done.
Qed.

(** C9. When the input decodes to a buffer, the buffer process_image
    hands to the encoder is the fold of pixelate_region over that buffer
    in list order; if a step of the fold raises, process_image raises
    the same and encodes nothing; and with a further rectangle at the
    end of the list, the final buffer is that rectangle's pixelation of
    what the earlier ones left. *)
Theorem process_image_sequential input_path output_path regions b w img0 :
  load image_open input_path w = Returns img0 ->
  (forall final,
     sequential_fold zero b img0 regions = Returns final ->
     process_image zero image_open image_save input_path output_path regions b w =
       (let* _ := fst (image_save final output_path QUALITY (files w)) in
        Returns output_path,
        World (snd (image_save final output_path QUALITY (files w))) (stdout w))) /\
  (forall e,
     sequential_fold zero b img0 regions = Raises e ->
     process_image zero image_open image_save input_path output_path regions b w =
       (Raises e, w)) /\
  (forall x1 y1 x2 y2,
     sequential_fold zero b img0 (regions ++ [(x1, y1, x2, y2)]) =
       let* buffer := sequential_fold zero b img0 regions in
       pixelate_region zero buffer x1 y1 x2 y2 b).
Proof.
  intros Hload. unfold process_image. rewrite Hload, pixelate_regions_fold.
  repeat split.
  - intros final ->. by destruct (image_save final output_path QUALITY (files w)).
  - by intros e ->.
  - intros. apply sequential_fold_snoc.
Qed.

End ScriptClaims.

(** ** The properties on the sample data *)

Local Ltac shape_ok := split; [reflexivity | repeat constructor].
Local Ltac rect_ok := unfold valid_rect; simpl; lia.


Lemma pixelate_region_frame_grid :
  well_shaped grid /\ valid_rect grid 1 0 4 3 /\ (1 <= 2)%Z /\
  exists img',
    pixelate_region 0%Z grid 1 0 4 3 2 = Returns img' /\
    shape_h img' = shape_h grid /\ shape_w img' = shape_w grid /\
    forall y x, ~ inside 1 0 4 3 y x -> pixel img' y x = pixel grid y x.
Proof.
  split; [shape_ok|]. split; [rect_ok|]. split; [lia|].
  apply (pixelate_region_frame 0%Z grid 1 0 4 3 2);
    [shape_ok | rect_ok | lia].
Defined.



Lemma pixelate_region_small_extent_grid :
  well_shaped grid /\ valid_rect grid 1 0 4 3 /\ (1 <= 5)%Z /\
  exists img',
    pixelate_region 0%Z grid 1 0 4 3 5 = Returns img' /\
    ((4 - 1 < 5)%Z ->
       downscaled (shape_w (getslice grid 0 3 1 4)) 5 = Returns 1 /\
       forall y x x',
         inside 1 0 4 3 y x -> inside 1 0 4 3 y x' ->
         pixel img' y x = pixel img' y x') /\
    ((3 - 0 < 5)%Z ->
       downscaled (shape_h (getslice grid 0 3 1 4)) 5 = Returns 1 /\
       forall y y' x,
         inside 1 0 4 3 y x -> inside 1 0 4 3 y' x ->
         pixel img' y x = pixel img' y' x).
Proof.
  split; [shape_ok|]. split; [rect_ok|]. split; [lia|].
  apply (pixelate_region_small_extent 0%Z grid 1 0 4 3 5);
    [shape_ok | rect_ok | lia].
Defined.

Lemma pixelate_region_block_size_one_grid :
  well_shaped grid /\ valid_rect grid 1 0 4 3 /\
  pixelate_region 0%Z grid 1 0 4 3 1 = Returns grid.
Proof.
  split; [shape_ok|]. split; [rect_ok|].
  apply (pixelate_region_block_size_one 0%Z grid 1 0 4 3);
    [shape_ok | rect_ok].
Defined.

(** C6, as stated, fails: for a rectangle with x2 = x1 the exception is
    the resize's ValueError, not InvalidRegion. *)
Lemma degenerate_region_not_invalid_region :
  (2 <= 2)%Z /\
  pixelate_region 0%Z strip 2 0 2 1 2 = Raises ValueError /\
  pixelate_region 0%Z strip 2 0 2 1 2 <> Raises InvalidRegion.
Proof. split; [lia|]. split; [reflexivity|discriminate]. Qed.

Lemma degenerate_region_fails_in_resize_strip :
  ((0 <= 2 <= 2)%Z \/ (0 <= 1 <= 0)%Z) /\ 2%Z <> 0%Z /\
  pixelate_region 0%Z strip 2 0 2 1 2 = Raises ValueError /\
  forall input_path output_path before after w,
    exists e,
      process_image 0%Z raw_open raw_save input_path output_path
        (before ++ (2, 0, 2, 1)%Z :: after) 2 w = (Raises e, w).
Proof.
  split; [left; lia|]. split; [discriminate|].
  apply (degenerate_region_fails_in_resize 0%Z raw_open raw_save strip 2 0 2 1 2);
    [left; lia | discriminate].
Defined.

Lemma main_input_missing_empty_disk :
  files (World (file := ndarray Z) ∅ []) !! INPUT_FILE = None /\
  main 0%Z raw_open raw_save raw_str (World ∅ []) =
    (1%Z, World ∅ ["Error: Input file 'email.jpg' not found."]) /\
  fst (main 0%Z raw_open raw_save raw_str (World ∅ [])) <> 0%Z /\
  files (snd (main 0%Z raw_open raw_save raw_str (World ∅ []))) = ∅.
Proof.
  split; [reflexivity|].
  apply (main_input_missing 0%Z raw_open raw_save raw_str (World ∅ [])).
  reflexivity.
Defined.


Lemma process_image_sequential_grid :
  load raw_open INPUT_FILE (World disk []) = Returns grid /\
  (forall final,
     sequential_fold 0%Z 2 grid [(0, 0, 2, 2); (1, 1, 4, 3)]%Z = Returns final ->
     process_image 0%Z raw_open raw_save INPUT_FILE OUTPUT_FILE
       [(0, 0, 2, 2); (1, 1, 4, 3)]%Z 2 (World disk []) =
       (let* _ := fst (raw_save final OUTPUT_FILE QUALITY disk) in
        Returns OUTPUT_FILE,
        World (snd (raw_save final OUTPUT_FILE QUALITY disk)) [])) /\
  (forall e,
     sequential_fold 0%Z 2 grid [(0, 0, 2, 2); (1, 1, 4, 3)]%Z = Raises e ->
     process_image 0%Z raw_open raw_save INPUT_FILE OUTPUT_FILE
       [(0, 0, 2, 2); (1, 1, 4, 3)]%Z 2 (World disk []) =
       (Raises e, World disk [])) /\
  (forall x1 y1 x2 y2,
     sequential_fold 0%Z 2 grid
       ([(0, 0, 2, 2); (1, 1, 4, 3)]%Z ++ [(x1, y1, x2, y2)]) =
       let* buffer := sequential_fold 0%Z 2 grid [(0, 0, 2, 2); (1, 1, 4, 3)]%Z in
       pixelate_region 0%Z buffer x1 y1 x2 y2 2).
Proof.
  split; [vm_compute; reflexivity|].
  apply (process_image_sequential 0%Z raw_open raw_save INPUT_FILE OUTPUT_FILE
           [(0, 0, 2, 2); (1, 1, 4, 3)]%Z 2 (World disk []) grid).
  vm_compute. reflexivity.
Defined.


(** * Further properties of the transform *)

Section MoreTransformFacts.

Context {A : Type} (zero : A).
Implicit Types img : ndarray A.

(** What a returning call says about its arguments and its result. *)
Lemma pixelate_region_inv img x1 y1 x2 y2 b img' ly h lx w :
  well_shaped img ->
  slice_range (shape_h img) y1 y2 = (ly, h) ->
  slice_range (shape_w img) x1 x2 = (lx, w) ->
  pixelate_region zero img x1 y1 x2 y2 b = Returns img' ->
  img' = blocks zero img x1 y1 x2 y2 b /\ b <> 0%Z /\ 1 <= h /\ 1 <= w.
Proof.
  intros Himg Ey Ex Hret.
  destruct (decide (b = 0%Z)) as [->|Hb];
    [by rewrite pixelate_region_zero_division in Hret|].
  destruct (decide (h = 0 \/ w = 0)) as [Hz|Hnz].
  - by rewrite (pixelate_region_empty zero img _ _ _ _ _ _ _ _ _ Hb Ey Ex Hz)
      in Hret.
  - rewrite (pixelate_region_blocks zero img _ _ _ _ _ _ _ _ _ Himg Hb Ey Ex)
      in Hret by lia.
    injection Hret as <-. repeat split; try done; lia.
Qed.

Lemma pixelate_region_keeps_shape img x1 y1 x2 y2 b img' :
  well_shaped img ->
  pixelate_region zero img x1 y1 x2 y2 b = Returns img' ->
  well_shaped img' /\ shape_h img' = shape_h img /\ shape_w img' = shape_w img.
Proof.
  intros Himg Hret.
  destruct (slice_range (shape_h img) y1 y2) as [ly h] eqn:Ey.
  destruct (slice_range (shape_w img) x1 x2) as [lx w] eqn:Ex.
  destruct (pixelate_region_inv _ _ _ _ _ _ _ _ _ _ _ Himg Ey Ex Hret)
    as (-> & _).
  apply well_shaped_blocks.
Qed.

(** X1. On a well-shaped buffer, pixelate_region raises
    ZeroDivisionError for block size 0, raises ValueError for any other
    block size when the region it slices has no row or no column, and
    returns in every other case. *)
Theorem pixelate_region_outcome img x1 y1 x2 y2 b :
  well_shaped img ->
  (b = 0%Z ->
     pixelate_region zero img x1 y1 x2 y2 b = Raises ZeroDivisionError) /\
  (b <> 0%Z ->
     shape_h (getslice img y1 y2 x1 x2) = 0 \/
     shape_w (getslice img y1 y2 x1 x2) = 0 ->
     pixelate_region zero img x1 y1 x2 y2 b = Raises ValueError) /\
  (b <> 0%Z ->
     1 <= shape_h (getslice img y1 y2 x1 x2) ->
     1 <= shape_w (getslice img y1 y2 x1 x2) ->
     returned (pixelate_region zero img x1 y1 x2 y2 b)).
Proof.
  intros Himg.
  destruct (slice_range (shape_h img) y1 y2) as [ly h] eqn:Ey.
  destruct (slice_range (shape_w img) x1 x2) as [lx w] eqn:Ex.
  destruct (shape_getslice img y1 y2 x1 x2 _ _ _ _ Ey Ex) as [-> ->].
  split; [|split].
  - intros ->. apply pixelate_region_zero_division.
  - intros Hb Hz. by eapply pixelate_region_empty.
  - intros Hb Hh Hw.
    by rewrite (pixelate_region_blocks zero img _ _ _ _ _ _ _ _ _
                  Himg Hb Ey Ex Hh Hw).
Qed.

(** X2. Whatever the rectangles and the block size, when the loop over
    the regions returns, the buffer it returns is well shaped and has
    the height and the width of the buffer it was given. *)
Theorem pixelate_regions_keep_shape img regions b final :
  well_shaped img ->
  pixelate_regions zero img regions b = Returns final ->
  well_shaped final /\
  shape_h final = shape_h img /\ shape_w final = shape_w img.
Proof.
  revert img.
  induction regions as [|[[[x1 y1] x2] y2] rest IH]; intros img Himg Hret.
  - simpl in Hret. by injection Hret as <-.
  - simpl in Hret.
    destruct (pixelate_region zero img x1 y1 x2 y2 b) as [img1|e] eqn:E1;
      [|done].
    simpl in Hret.
    destruct (pixelate_region_keeps_shape _ _ _ _ _ _ _ Himg E1)
      as (Hw1 & <- & <-).
    by apply IH.
Qed.

Lemma blocks_values img x1 y1 x2 y2 b y x p :
  well_shaped img ->
  pixel (blocks zero img x1 y1 x2 y2 b) y x = Some p ->
  exists sy sx, pixel img sy sx = Some p.
Proof.
  intros Himg. unfold blocks.
  destruct (slice_range (shape_h img) y1 y2) as [ly h] eqn:Ey.
  destruct (slice_range (shape_w img) x1 x2) as [lx w] eqn:Ex.
  pose proof (slice_range_bounds _ _ _ _ _ Ey).
  pose proof (slice_range_bounds _ _ _ _ _ Ex).
  rewrite pixel_tabulate. case_decide as Hin; [|done].
  intros [= <-]. case_decide as Hr.
  - pose proof (cell_source_lt h b (y - ly)).
    pose proof (cell_source_lt w b (x - lx)).
    eexists _, _. apply pixel_Some; [done|lia|lia].
  - eexists _, _. apply pixel_Some; [done|lia|lia].
Qed.

(** X3. Pixelation makes no new pixel value: when the loop over the
    regions returns, every pixel of the buffer it returns is the value
    of some pixel of the buffer it was given. *)
Theorem pixelate_regions_no_new_values img regions b final y x p :
  well_shaped img ->
  pixelate_regions zero img regions b = Returns final ->
  pixel final y x = Some p ->
  exists sy sx, pixel img sy sx = Some p.
Proof.
  revert img y x p.
  induction regions as [|[[[x1 y1] x2] y2] rest IH];
    intros img y x p Himg Hret Hp.
  - simpl in Hret. injection Hret as <-. eauto.
  - simpl in Hret.
    destruct (pixelate_region zero img x1 y1 x2 y2 b) as [img1|e] eqn:E1;
      [|done].
    simpl in Hret.
    destruct (pixelate_region_keeps_shape _ _ _ _ _ _ _ Himg E1) as (Hw1 & _).
    destruct (IH img1 y x p Hw1 Hret Hp) as (sy & sx & Hs).
    destruct (slice_range (shape_h img) y1 y2) as [ly h] eqn:Ey.
    destruct (slice_range (shape_w img) x1 x2) as [lx w] eqn:Ex.
    destruct (pixelate_region_inv _ _ _ _ _ _ _ _ _ _ _ Himg Ey Ex E1)
      as (-> & _).
    by eapply blocks_values.
Qed.

Lemma blocks_frame img x1 y1 x2 y2 b y x :
  well_shaped img ->
  ~ covers (shape_h img) (shape_w img) (x1, y1, x2, y2) y x ->
  pixel (blocks zero img x1 y1 x2 y2 b) y x = pixel img y x.
Proof.
  intros Himg Hout. unfold covers in Hout.
  destruct (well_shaped_blocks zero img x1 y1 x2 y2 b) as (Hwb & Ehb & Ewb).
  destruct (slice_range (shape_h img) y1 y2) as [ly h] eqn:Ey.
  destruct (slice_range (shape_w img) x1 x2) as [lx w] eqn:Ex.
  destruct (decide (y < shape_h img /\ x < shape_w img)) as [[Hy Hx]|Hoff].
  - rewrite (pixel_blocks _ _ _ _ _ _ _ _ _ _ _ _ _ Ey Ex Hy Hx).
    rewrite decide_False by done. symmetry. by apply pixel_Some.
  - by rewrite !pixel_None by (rewrite ?Ehb, ?Ewb; done).
Qed.

(** X4. When the loop over the regions returns, every position that no
    rectangle of the list selects holds the pixel it held before,
    whatever the coordinates of the rectangles. *)
Theorem pixelate_regions_frame img regions b final y x :
  well_shaped img ->
  pixelate_regions zero img regions b = Returns final ->
  Forall (fun r => ~ covers (shape_h img) (shape_w img) r y x) regions ->
  pixel final y x = pixel img y x.
Proof.
  revert img.
  induction regions as [|[[[x1 y1] x2] y2] rest IH];
    intros img Himg Hret Hout.
  - simpl in Hret. by injection Hret as <-.
  - simpl in Hret.
    destruct (pixelate_region zero img x1 y1 x2 y2 b) as [img1|e] eqn:E1;
      [|done].
    simpl in Hret. apply Forall_cons in Hout as [Hhere Hrest].
    destruct (pixelate_region_keeps_shape _ _ _ _ _ _ _ Himg E1)
      as (Hw1 & Eh1 & Ew1).
    rewrite (IH img1 Hw1 Hret) by (by rewrite Eh1, Ew1).
    destruct (slice_range (shape_h img) y1 y2) as [ly h] eqn:Ey.
    destruct (slice_range (shape_w img) x1 x2) as [lx w] eqn:Ex.
    destruct (pixelate_region_inv _ _ _ _ _ _ _ _ _ _ _ Himg Ey Ex E1)
      as (-> & _).
    by apply blocks_frame.
Qed.

Lemma pixelate_region_eval img x1 y1 x2 y2 b ly h lx w :
  well_shaped img -> b <> 0%Z ->
  slice_range (shape_h img) y1 y2 = (ly, h) ->
  slice_range (shape_w img) x1 x2 = (lx, w) ->
  pixelate_region zero img x1 y1 x2 y2 b =
    if decide (h = 0 \/ w = 0) then Raises ValueError
    else Returns (blocks zero img x1 y1 x2 y2 b).
Proof.
  intros Himg Hb Ey Ex. case_decide as Hz.
  - by eapply pixelate_region_empty.
  - eapply pixelate_region_blocks; eauto; lia.
Qed.

Lemma blocks_disjoint_swap img x1 y1 x2 y2 x1' y1' x2' y2' b :
  well_shaped img ->
  disjoint (shape_h img) (shape_w img) (x1, y1, x2, y2) (x1', y1', x2', y2') ->
  blocks zero (blocks zero img x1 y1 x2 y2 b) x1' y1' x2' y2' b =
  blocks zero (blocks zero img x1' y1' x2' y2' b) x1 y1 x2 y2 b.
Proof.
  intros Himg Hdis.
  destruct (well_shaped_blocks zero img x1 y1 x2 y2 b) as (Ha & Eha & Ewa).
  destruct (well_shaped_blocks zero img x1' y1' x2' y2' b)
    as (Ha' & Eha' & Ewa').
  set (a := blocks zero img x1 y1 x2 y2 b) in *.
  set (a' := blocks zero img x1' y1' x2' y2' b) in *.
  destruct (well_shaped_blocks zero a x1' y1' x2' y2' b) as (Hl & Ehl & Ewl).
  destruct (well_shaped_blocks zero a' x1 y1 x2 y2 b) as (Hr & Ehr & Ewr).
  destruct (slice_range (shape_h img) y1 y2) as [ly h] eqn:Ey.
  destruct (slice_range (shape_w img) x1 x2) as [lx w] eqn:Ex.
  destruct (slice_range (shape_h img) y1' y2') as [ly' h'] eqn:Ey'.
  destruct (slice_range (shape_w img) x1' x2') as [lx' w'] eqn:Ex'.
  pose proof (slice_range_bounds _ _ _ _ _ Ey).
  pose proof (slice_range_bounds _ _ _ _ _ Ex).
  pose proof (slice_range_bounds _ _ _ _ _ Ey').
  pose proof (slice_range_bounds _ _ _ _ _ Ex').
  assert (forall y x,
            (ly <= y < ly + h) /\ (lx <= x < lx + w) ->
            (ly' <= y < ly' + h') /\ (lx' <= x < lx' + w') -> False) as Hno.
  { intros y x Hin Hin'. apply (Hdis y x). unfold covers.
    by rewrite Ey, Ex, Ey', Ex'. }
  apply ndarray_ext; try done; try congruence.
  rewrite Ehl, Ewl, Eha, Ewa. intros y x Hy Hx.
  rewrite (pixel_blocks zero a x1' y1' x2' y2' b ly' h' lx' w')
    by (rewrite ?Eha, ?Ewa; done).
  rewrite (pixel_blocks zero a' x1 y1 x2 y2 b ly h lx w)
    by (rewrite ?Eha', ?Ewa'; done).
  f_equal. unfold a, a'.
  pose proof (cell_source_lt h b (y - ly)).
  pose proof (cell_source_lt w b (x - lx)).
  pose proof (cell_source_lt h' b (y - ly')).
  pose proof (cell_source_lt w' b (x - lx')).
  destruct (decide ((ly' <= y < ly' + h') /\ (lx' <= x < lx' + w')))
    as [Hin'|Hout'];
  destruct (decide ((ly <= y < ly + h) /\ (lx <= x < lx + w)))
    as [Hin|Hout].
  - destruct (Hno y x Hin Hin').
  - rewrite (pix_blocks zero img x1 y1 x2 y2 b ly h lx w) by (done || lia).
    rewrite (pix_blocks zero img x1' y1' x2' y2' b ly' h' lx' w') by done.
    rewrite (decide_True (P := (ly' <= y < ly' + h') /\ (lx' <= x < lx' + w')))
      by done.
    case_decide as Hsrc; [|done].
    destruct (Hno _ _ Hsrc). lia.
  - rewrite (pix_blocks zero img x1 y1 x2 y2 b ly h lx w) by done.
    rewrite (pix_blocks zero img x1' y1' x2' y2' b ly' h' lx' w')
      by (done || lia).
    rewrite (decide_True (P := (ly <= y < ly + h) /\ (lx <= x < lx + w)))
      by done.
    case_decide as Hsrc; [|done].
    destruct (Hno (ly + cell_source h b (y - ly))
                  (lx + cell_source w b (x - lx))); [lia|done].
  - rewrite (pix_blocks zero img x1 y1 x2 y2 b ly h lx w) by done.
    rewrite (pix_blocks zero img x1' y1' x2' y2' b ly' h' lx' w') by done.
    by rewrite !decide_False by done.
Qed.

(** X5. Two rectangles that select no common position can be processed
    in either order: on a well-shaped buffer the loop over the two has
    the same outcome, buffer or exception, both ways round. *)
Theorem pixelate_regions_disjoint_commute img r r' b :
  well_shaped img ->
  disjoint (shape_h img) (shape_w img) r r' ->
  pixelate_regions zero img [r; r'] b = pixelate_regions zero img [r'; r] b.
Proof.
  destruct r as [[[x1 y1] x2] y2], r' as [[[x1' y1'] x2'] y2'].
  intros Himg Hdis. simpl.
  destruct (decide (b = 0%Z)) as [->|Hb];
    [by rewrite !pixelate_region_zero_division|].
  destruct (well_shaped_blocks zero img x1 y1 x2 y2 b) as (Ha & Eha & Ewa).
  destruct (well_shaped_blocks zero img x1' y1' x2' y2' b)
    as (Ha' & Eha' & Ewa').
  destruct (slice_range (shape_h img) y1 y2) as [ly h] eqn:Ey.
  destruct (slice_range (shape_w img) x1 x2) as [lx w] eqn:Ex.
  destruct (slice_range (shape_h img) y1' y2') as [ly' h'] eqn:Ey'.
  destruct (slice_range (shape_w img) x1' x2') as [lx' w'] eqn:Ex'.
  rewrite (pixelate_region_eval img _ _ _ _ _ _ _ _ _ Himg Hb Ey Ex).
  rewrite (pixelate_region_eval img _ _ _ _ _ _ _ _ _ Himg Hb Ey' Ex').
  destruct (decide (h = 0 \/ w = 0)) as [Hz|Hnz];
  destruct (decide (h' = 0 \/ w' = 0)) as [Hz'|Hnz']; simpl; try done.
  - rewrite (pixelate_region_eval _ x1 y1 x2 y2 b ly h lx w Ha' Hb)
      by (rewrite ?Eha', ?Ewa'; done).
    by rewrite decide_True.
  - rewrite (pixelate_region_eval _ x1' y1' x2' y2' b ly' h' lx' w' Ha Hb)
      by (rewrite ?Eha, ?Ewa; done).
    by rewrite decide_True.
  - rewrite (pixelate_region_eval _ x1' y1' x2' y2' b ly' h' lx' w' Ha Hb)
      by (rewrite ?Eha, ?Ewa; done).
    rewrite (pixelate_region_eval _ x1 y1 x2 y2 b ly h lx w Ha' Hb)
      by (rewrite ?Eha', ?Ewa'; done).
    rewrite !decide_False by done.
    by rewrite (blocks_disjoint_swap img x1 y1 x2 y2 x1' y1' x2' y2' b Himg Hdis).
Qed.

Lemma slice_bound_idem n i :
  slice_bound n (Z.of_nat (slice_bound n i)) = slice_bound n i.
Proof.
  assert (slice_bound n i <= n) as Hle
    by (unfold slice_bound; case_match; lia).
  unfold slice_bound at 1.
  destruct (Z.of_nat (slice_bound n i) <? 0)%Z eqn:E; lia.
Qed.

(** X6. The coordinates are read as slice bounds: a negative one counts
    from the right or bottom edge and one beyond an edge is cut to it.
    The call has the same outcome as the call with the four positions
    these bounds denote. *)
Theorem pixelate_region_reads_slice_bounds img x1 y1 x2 y2 b :
  pixelate_region zero img x1 y1 x2 y2 b =
  pixelate_region zero img
    (Z.of_nat (slice_bound (shape_w img) x1))
    (Z.of_nat (slice_bound (shape_h img) y1))
    (Z.of_nat (slice_bound (shape_w img) x2))
    (Z.of_nat (slice_bound (shape_h img) y2)) b.
Proof.
  unfold pixelate_region, getslice, setslice, slice_range.
  by rewrite !slice_bound_idem.
Qed.

Lemma reduced_single n b :
  (b < 0)%Z \/ (Z.of_nat n < b)%Z -> reduced n b = 1.
Proof.
  intros [Hneg|Hbig]; [|by apply reduced_small].
  unfold reduced.
  assert (Z.of_nat n / b <= 0)%Z; [|lia].
  Z.div_mod_to_equations. nia.
Qed.

Lemma cell_source_single n b k :
  reduced n b = 1 -> k < n -> cell_source n b k = n / 2.
Proof.
  intros Hone Hk. unfold cell_source, cell. rewrite Hone.
  rewrite (nearest_off_tie 1 n k) by (rewrite Nat.mod_small; lia).
  rewrite nearest_whole_scale by apply Nat.mod_1_r.
  unfold centre_sample.
  rewrite (Nat.div_small ((2 * k + 1) * 1)) by lia.
  f_equal; lia.
Qed.

(** X7. A negative block size is accepted, and so is one above both the
    width and the height of the rectangle: for a rectangle within the
    buffer the call returns, and every pixel of the rectangle holds the
    value of the pixel at offset (height // 2, width // 2) of the
    rectangle. *)
Theorem pixelate_region_single_value img x1 y1 x2 y2 b :
  well_shaped img -> valid_rect img x1 y1 x2 y2 ->
  (b < 0)%Z \/ ((x2 - x1 < b)%Z /\ (y2 - y1 < b)%Z) ->
  exists img',
    pixelate_region zero img x1 y1 x2 y2 b = Returns img' /\
    forall y x,
      inside x1 y1 x2 y2 y x ->
      pixel img' y x =
        pixel img (Z.to_nat y1 + Z.to_nat (y2 - y1) / 2)
                  (Z.to_nat x1 + Z.to_nat (x2 - x1) / 2).
Proof.
  intros Himg Hv Hb.
  pose proof Hv as (Hx1 & Hx2 & Hy1 & Hy2).
  exists (blocks zero img x1 y1 x2 y2 b).
  split; [apply pixelate_region_valid; [done|done|lia]|].
  intros y x Hin. rewrite blocks_inside by done.
  unfold inside in Hin.
  rewrite !cell_source_single by (try apply reduced_single; lia).
  symmetry. apply pixel_Some; [done| |].
  - pose proof (Nat.Div0.div_le_upper_bound (Z.to_nat (y2 - y1)) 2
                  (Z.to_nat (y2 - y1))).
    assert (Z.to_nat (y2 - y1) / 2 < Z.to_nat (y2 - y1))
      by (apply Nat.div_lt; lia).
    lia.
  - assert (Z.to_nat (x2 - x1) / 2 < Z.to_nat (x2 - x1))
      by (apply Nat.div_lt; lia).
    lia.
Qed.

(** X8. For a block size other than zero the reduced dimension is at
    least 1, is at most the extent when the extent is at least 1, is the
    floor of extent / block size when the block size lies between 1 and
    the extent, and is 1 when the block size is negative or above the
    extent. *)
Theorem downscaled_bounds n b :
  b <> 0%Z ->
  exists t,
    downscaled n b = Returns t /\
    1 <= t /\
    (1 <= n -> t <= n) /\
    ((1 <= b <= Z.of_nat n)%Z -> Z.of_nat t = (Z.of_nat n / b)%Z) /\
    ((b < 0)%Z \/ (Z.of_nat n < b)%Z -> t = 1).
Proof.
  intros Hb. exists (reduced n b).
  split; [by apply downscaled_returns|].
  split; [apply reduced_pos|].
  split; [apply reduced_le|].
  split; [|apply reduced_single].
  intros Hrange. unfold reduced.
  assert (1 <= Z.of_nat n / b)%Z; [|lia].
  apply Z.div_le_lower_bound; lia.
Qed.

Lemma cell_source_divisible n b k :
  (0 < b)%Z -> (Z.of_nat n mod b = 0)%Z -> k < n ->
  cell_source n b k = k / Z.to_nat b * Z.to_nat b + Z.to_nat b / 2.
Proof.
  intros Hb Hmod Hk. unfold cell_source.
  rewrite cell_divisible by done. unfold reduced.
  apply Z.mod_divide in Hmod as [q Hq]; [|lia].
  rewrite Hq, Z.div_mul by lia.
  assert (1 <= q)%Z by nia.
  rewrite Z.max_r by lia.
  set (c := Z.to_nat b). set (t := Z.to_nat q).
  assert (n = t * c) as -> by (unfold t, c; nia).
  assert (0 < c) by (unfold c; lia).
  assert (0 < t) by (unfold t; lia).
  set (j := k / c).
  rewrite nearest_whole_scale
    by (rewrite (Nat.mul_comm t c); apply Nat.Div0.mod_mul).
  unfold centre_sample.
  symmetry. apply (Nat.div_unique _ _ _ (t * (c mod 2))).
  - pose proof (Nat.mod_upper_bound c 2). nia.
  - pose proof (Nat.div_mod_eq c 2). nia.
Qed.

(** X9. When the block size divides both the height and the width of a
    rectangle within the buffer, every pixel of the rectangle ends up
    with the value of the pixel at offset (b // 2, b // 2) of its own
    b x b tile. *)
Theorem pixelate_region_tile_value img x1 y1 x2 y2 b :
  well_shaped img -> valid_rect img x1 y1 x2 y2 -> (1 <= b)%Z ->
  ((y2 - y1) mod b = 0)%Z -> ((x2 - x1) mod b = 0)%Z ->
  exists img',
    pixelate_region zero img x1 y1 x2 y2 b = Returns img' /\
    forall y x,
      inside x1 y1 x2 y2 y x ->
      pixel img' y x =
        pixel img
          (Z.to_nat y1 + ((y - Z.to_nat y1) / Z.to_nat b * Z.to_nat b
                          + Z.to_nat b / 2))
          (Z.to_nat x1 + ((x - Z.to_nat x1) / Z.to_nat b * Z.to_nat b
                          + Z.to_nat b / 2)).
Proof.
  intros Himg Hv Hb Hmy Hmx.
  pose proof Hv as (Hx1 & Hx2 & Hy1 & Hy2).
  exists (blocks zero img x1 y1 x2 y2 b).
  split; [apply pixelate_region_valid; [done|done|lia]|].
  intros y x Hin. rewrite blocks_inside by done.
  unfold inside in Hin.
  pose proof (cell_source_lt (Z.to_nat (y2 - y1)) b (y - Z.to_nat y1)) as Hsy.
  pose proof (cell_source_lt (Z.to_nat (x2 - x1)) b (x - Z.to_nat x1)) as Hsx.
  rewrite cell_source_divisible in Hsy |- *
    by (try lia; rewrite Z2Nat.id by lia; done).
  rewrite cell_source_divisible in Hsx |- *
    by (try lia; rewrite Z2Nat.id by lia; done).
  symmetry. apply pixel_Some; [done|lia|lia].
Qed.


End MoreTransformFacts.

(** * Further properties of process_image and main *)

Section MoreScriptFacts.

Context {A : Type} (zero : A) {file : Type}.
Variable image_open : file -> outcome (ndarray A).
Variable image_save :
  ndarray A -> string -> Z -> gmap string file -> outcome unit * gmap string file.
Variable str : exn -> string.
Implicit Types w : world file.
Implicit Types img : ndarray A.

(** X11. process_image prints nothing, returns no path but the output
    path, fails without touching the files when the input is missing
    and changes the files only by its one save. *)
Theorem process_image_effects input_path output_path regions b w :
  stdout (snd (process_image zero image_open image_save
                 input_path output_path regions b w)) = stdout w /\
  (forall p,
     fst (process_image zero image_open image_save
            input_path output_path regions b w) = Returns p ->
     p = output_path) /\
  (files w !! input_path = None ->
     process_image zero image_open image_save
       input_path output_path regions b w = (Raises FileNotFoundError, w)) /\
  (files (snd (process_image zero image_open image_save
                 input_path output_path regions b w)) = files w \/
   exists img final,
     load image_open input_path w = Returns img /\
     pixelate_regions zero img regions b = Returns final /\
     files (snd (process_image zero image_open image_save
                   input_path output_path regions b w)) =
       snd (image_save final output_path QUALITY (files w))).
Proof.
  unfold process_image, load.
  destruct (files w !! input_path) as [f|] eqn:Ef.
  - destruct (image_open f) as [img|e]; [|by repeat split; auto].
    destruct (pixelate_regions zero img regions b) as [final|e] eqn:Er;
      [|by repeat split; auto].
    destruct (image_save final output_path QUALITY (files w))
      as [[[]|e] fs] eqn:Es; simpl.
    + repeat split; try done; [by intros p [= <-]|].
      right. exists img, final. by rewrite Es.
    + repeat split; try done.
      right. exists img, final. by rewrite Es.
  - repeat split; auto. done.
Qed.

(** X12. When the input file exists but cannot be decoded, or one of the
    two configured regions makes pixelate_region raise, main ends with
    status 1, prints the error line with the text of the exception, and
    leaves the files as they were. *)
Theorem main_processing_error w e :
  files w !! INPUT_FILE <> None ->
  load image_open INPUT_FILE w = Raises e \/
  (exists img,
     load image_open INPUT_FILE w = Returns img /\
     pixelate_regions zero img [FROM_COLUMN; SUBJECT_COLUMN] PIXEL_SIZE
       = Raises e) ->
  main zero image_open image_save str w =
    (1%Z, World (files w)
            (stdout w ++ ["Error processing image: " +:+ str e])).
Proof.
  intros Hexists Hfail. unfold main.
  rewrite decide_False by done. unfold process_image.
  destruct Hfail as [-> | (img & -> & ->)]; reflexivity.
Qed.

(** X13. main prints exactly one line and ends with status 0 or 1; the
    status is 0 exactly when the input decoded, both configured regions
    were pixelated and the save succeeded, and then the line printed
    names the output file. *)
Theorem main_exit_status w :
  (exists line,
     stdout (snd (main zero image_open image_save str w)) = stdout w ++ [line]) /\
  (fst (main zero image_open image_save str w) = 0%Z \/
   fst (main zero image_open image_save str w) = 1%Z) /\
  (fst (main zero image_open image_save str w) = 0%Z <->
   exists img final,
     load image_open INPUT_FILE w = Returns img /\
     pixelate_regions zero img [FROM_COLUMN; SUBJECT_COLUMN] PIXEL_SIZE
       = Returns final /\
     fst (image_save final OUTPUT_FILE QUALITY (files w)) = Returns tt) /\
  (fst (main zero image_open image_save str w) = 0%Z ->
   stdout (snd (main zero image_open image_save str w)) =
     stdout w ++ ["Successfully processed image: email_pixelated.jpg"]).
Proof.
  unfold main, process_image, load.
  destruct (files w !! INPUT_FILE) as [f|] eqn:Ef.
  - rewrite decide_False by done.
    destruct (image_open f) as [img|e] eqn:Eo.
    + destruct (pixelate_regions zero img [FROM_COLUMN; SUBJECT_COLUMN]
                  PIXEL_SIZE) as [final|e] eqn:Er.
      * destruct (image_save final OUTPUT_FILE QUALITY (files w))
          as [[[]|e] fs] eqn:Es; cbn [fst snd stdout files print bind].
        -- repeat split; eauto.
           intros _. exists img, final. by rewrite Es.
        -- repeat split; eauto; try done.
           intros (img' & final' & [= <-] & Er' & Hs).
           rewrite Er in Er'. injection Er' as <-.
           by rewrite Es in Hs.
      * cbn [fst snd stdout files print bind]. repeat split; eauto; try done.
        intros (img' & final' & [= <-] & Er' & _). by rewrite Er in Er'.
    + cbn [fst snd stdout files print bind]. repeat split; eauto; try done.
      by intros (img' & final' & ? & _).
  - rewrite decide_True by done. cbn [fst snd stdout files print bind]. repeat split; eauto; try done.
    by intros (img' & final' & ? & _).
Qed.

Lemma slice_range_nonneg n start stop :
  (0 <= start)%Z -> (0 <= stop)%Z ->
  slice_range n start stop =
    (Nat.min (Z.to_nat start) n,
     Nat.min (Z.to_nat stop) n - Nat.min (Z.to_nat start) n).
Proof.
  intros. unfold slice_range, slice_bound.
  destruct (start <? 0)%Z eqn:E1; [lia|].
  destruct (stop <? 0)%Z eqn:E2; [lia|]. done.
Qed.

(** The two configured regions fit a buffer more than 895 wide and more
    than 145 high, and no other. *)
Lemma configured_regions img :
  well_shaped img ->
  pixelate_regions zero img [FROM_COLUMN; SUBJECT_COLUMN] PIXEL_SIZE =
    if decide (895 < shape_w img /\ 145 < shape_h img)
    then Returns (blocks zero (blocks zero img 539 145 875 400 15)
                    895 145 1998 400 15)
    else Raises ValueError.
Proof.
  intros Himg. unfold FROM_COLUMN, SUBJECT_COLUMN, PIXEL_SIZE.
  cbn [pixelate_regions].
  destruct (well_shaped_blocks zero img 539 145 875 400 15)
    as (Ha & Eha & Ewa).
  rewrite (pixelate_region_eval zero img 539 145 875 400 15 _ _ _ _ Himg
             ltac:(done)
             (slice_range_nonneg _ 145 400 ltac:(lia) ltac:(lia))
             (slice_range_nonneg _ 539 875 ltac:(lia) ltac:(lia))).
  case_decide as Hz; cbn [bind].
  - rewrite decide_False by lia. done.
  - rewrite (pixelate_region_eval zero _ 895 145 1998 400 15 _ _ _ _ Ha
               ltac:(done)
               (slice_range_nonneg _ 145 400 ltac:(lia) ltac:(lia))
               (slice_range_nonneg _ 895 1998 ltac:(lia) ltac:(lia))).
    rewrite Eha, Ewa. repeat case_decide; try done; lia.
Qed.

(** X14. On an input that decodes to a buffer at most 895 wide or at
    most 145 high, a configured region is empty: main ends with status
    1, prints the error line for the resize's ValueError and leaves the
    files as they were. *)
Theorem main_image_too_small w f img :
  files w !! INPUT_FILE = Some f -> image_open f = Returns img ->
  well_shaped img ->
  shape_w img <= 895 \/ shape_h img <= 145 ->
  main zero image_open image_save str w =
    (1%Z, World (files w)
            (stdout w ++ ["Error processing image: " +:+ str ValueError])).
Proof.
  intros Ef Eo Himg Hsmall. unfold main, process_image, load.
  rewrite decide_False by (by rewrite Ef). rewrite Ef, Eo.
  rewrite configured_regions by done.
  rewrite decide_False by lia. reflexivity.
Qed.

(** X15. On an input that decodes to a buffer more than 895 wide and
    more than 145 high, main hands to the save the buffer with the
    sender column pixelated and then the subject column, both with
    block size 15, and its status and printed line follow the save:
    status 0 and the success line when the save returns, status 1 and
    the error line when it raises. *)
Theorem main_image_large_enough w f img :
  files w !! INPUT_FILE = Some f -> image_open f = Returns img ->
  well_shaped img ->
  895 < shape_w img -> 145 < shape_h img ->
  main zero image_open image_save str w =
    match image_save
            (blocks zero (blocks zero img 539 145 875 400 15)
               895 145 1998 400 15)
            OUTPUT_FILE QUALITY (files w) with
    | (Returns _, fs) =>
        (0%Z, World fs
                (stdout w ++
                   ["Successfully processed image: email_pixelated.jpg"]))
    | (Raises e, fs) =>
        (1%Z, World fs (stdout w ++ ["Error processing image: " +:+ str e]))
    end.
Proof.
  intros Ef Eo Himg Hw Hh. unfold main, process_image, load.
  rewrite decide_False by (by rewrite Ef). rewrite Ef, Eo.
  rewrite configured_regions by done.
  rewrite decide_True by lia.
  by destruct (image_save _ OUTPUT_FILE QUALITY (files w)) as [[[]|e] fs].
Qed.

End MoreScriptFacts.

(** ** The further properties on the sample data *)

Lemma pixelate_region_outcome_grid :
  well_shaped grid /\
  (2%Z = 0%Z ->
     pixelate_region 0%Z grid 1 0 4 3 2 = Raises ZeroDivisionError) /\
  (2%Z <> 0%Z ->
     shape_h (getslice grid 0 3 1 4) = 0 \/
     shape_w (getslice grid 0 3 1 4) = 0 ->
     pixelate_region 0%Z grid 1 0 4 3 2 = Raises ValueError) /\
  (2%Z <> 0%Z ->
     1 <= shape_h (getslice grid 0 3 1 4) ->
     1 <= shape_w (getslice grid 0 3 1 4) ->
     returned (pixelate_region 0%Z grid 1 0 4 3 2)).
Proof.
  split; [shape_ok|].
  apply (pixelate_region_outcome 0%Z grid 1 0 4 3 2). shape_ok.
Defined.

Lemma pixelate_regions_keep_shape_grid :
  well_shaped grid /\
  exists final,
    pixelate_regions 0%Z grid [(0, 0, 2, 2); (1, 1, 9, 3)]%Z 2 = Returns final /\
    well_shaped final /\
    shape_h final = shape_h grid /\ shape_w final = shape_w grid.
Proof.
  split; [shape_ok|]. eexists. split; [vm_compute; reflexivity|].
  apply (pixelate_regions_keep_shape 0%Z grid
           [(0, 0, 2, 2); (1, 1, 9, 3)]%Z 2);
    [shape_ok | vm_compute; reflexivity].
Defined.

Lemma pixelate_regions_no_new_values_grid :
  well_shaped grid /\
  exists final,
    pixelate_regions 0%Z grid [(0, 0, 2, 2); (1, 1, 9, 3)]%Z 2 = Returns final /\
    pixel final 1 1 = Some 32%Z /\
    exists sy sx, pixel grid sy sx = Some 32%Z.
Proof.
  split; [shape_ok|]. eexists. split; [vm_compute; reflexivity|].
  split; [vm_compute; reflexivity|].
  eapply (pixelate_regions_no_new_values 0%Z grid
            [(0, 0, 2, 2); (1, 1, 9, 3)]%Z 2 _ 1 1 32%Z);
    [shape_ok | vm_compute; reflexivity | vm_compute; reflexivity].
Defined.

Lemma pixelate_regions_frame_grid :
  well_shaped grid /\
  Forall (fun r => ~ covers (shape_h grid) (shape_w grid) r 0 3)
    [(0, 0, 2, 2); (1, 1, 9, 3)]%Z /\
  exists final,
    pixelate_regions 0%Z grid [(0, 0, 2, 2); (1, 1, 9, 3)]%Z 2 = Returns final /\
    pixel final 0 3 = pixel grid 0 3.
Proof.
  assert (Forall (fun r => ~ covers (shape_h grid) (shape_w grid) r 0 3)
            [(0, 0, 2, 2); (1, 1, 9, 3)]%Z) as Hout
    by (apply Forall_cons; split; [unfold covers; cbv; lia|];
        apply Forall_cons; split; [unfold covers; cbv; lia|];
        constructor).
  split; [shape_ok|]. split; [exact Hout|].
  eexists. split; [vm_compute; reflexivity|].
  apply (pixelate_regions_frame 0%Z grid
           [(0, 0, 2, 2); (1, 1, 9, 3)]%Z 2);
    [shape_ok | vm_compute; reflexivity | exact Hout].
Defined.

Lemma pixelate_regions_disjoint_commute_grid :
  well_shaped grid /\
  disjoint (shape_h grid) (shape_w grid) (0, 0, 2, 3)%Z (2, 1, 4, 3)%Z /\
  pixelate_regions 0%Z grid [(0, 0, 2, 3); (2, 1, 4, 3)]%Z 2 =
  pixelate_regions 0%Z grid [(2, 1, 4, 3); (0, 0, 2, 3)]%Z 2.
Proof.
  assert (disjoint (shape_h grid) (shape_w grid) (0, 0, 2, 3)%Z (2, 1, 4, 3)%Z)
    as Hdis by (intros y x; unfold covers; cbv; lia).
  split; [shape_ok|]. split; [exact Hdis|].
  apply (pixelate_regions_disjoint_commute 0%Z grid (0, 0, 2, 3)%Z (2, 1, 4, 3)%Z 2);
    [shape_ok | exact Hdis].
Defined.

Lemma pixelate_region_single_value_grid :
  well_shaped grid /\ valid_rect grid 1 0 4 3 /\
  ((-3 < 0)%Z \/ ((4 - 1 < -3)%Z /\ (3 - 0 < -3)%Z)) /\
  exists img',
    pixelate_region 0%Z grid 1 0 4 3 (-3) = Returns img' /\
    forall y x,
      inside 1 0 4 3 y x ->
      pixel img' y x =
        pixel grid (Z.to_nat 0 + Z.to_nat (3 - 0) / 2)
                   (Z.to_nat 1 + Z.to_nat (4 - 1) / 2).
Proof.
  split; [shape_ok|]. split; [rect_ok|]. split; [left; lia|].
  apply (pixelate_region_single_value 0%Z grid 1 0 4 3 (-3));
    [shape_ok | rect_ok | left; lia].
Defined.

Lemma downscaled_bounds_336 :
  15%Z <> 0%Z /\
  exists t,
    downscaled 336 15 = Returns t /\
    1 <= t /\
    (1 <= 336 -> t <= 336) /\
    ((1 <= 15 <= Z.of_nat 336)%Z -> Z.of_nat t = (Z.of_nat 336 / 15)%Z) /\
    ((15 < 0)%Z \/ (Z.of_nat 336 < 15)%Z -> t = 1).
Proof.
  split; [discriminate|].
  apply (downscaled_bounds 336 15). discriminate.
Defined.

Lemma pixelate_region_tile_value_grid :
  well_shaped grid /\ valid_rect grid 0 0 4 2 /\ (1 <= 2)%Z /\
  ((2 - 0) mod 2 = 0)%Z /\ ((4 - 0) mod 2 = 0)%Z /\
  exists img',
    pixelate_region 0%Z grid 0 0 4 2 2 = Returns img' /\
    forall y x,
      inside 0 0 4 2 y x ->
      pixel img' y x =
        pixel grid
          (Z.to_nat 0 + ((y - Z.to_nat 0) / Z.to_nat 2 * Z.to_nat 2
                         + Z.to_nat 2 / 2))
          (Z.to_nat 0 + ((x - Z.to_nat 0) / Z.to_nat 2 * Z.to_nat 2
                         + Z.to_nat 2 / 2)).
Proof.
  split; [shape_ok|]. split; [rect_ok|]. split; [lia|].
  split; [reflexivity|]. split; [reflexivity|].
  apply (pixelate_region_tile_value 0%Z grid 0 0 4 2 2);
    [shape_ok | rect_ok | lia | reflexivity | reflexivity].
Defined.


Lemma main_processing_error_grid :
  files (World disk []) !! INPUT_FILE <> None /\
  (load raw_open INPUT_FILE (World disk []) = Raises ValueError \/
   exists img,
     load raw_open INPUT_FILE (World disk []) = Returns img /\
     pixelate_regions 0%Z img [FROM_COLUMN; SUBJECT_COLUMN] PIXEL_SIZE
       = Raises ValueError) /\
  main 0%Z raw_open raw_save raw_str (World disk []) =
    (1%Z, World disk
            ([] ++ ["Error processing image: " +:+ raw_str ValueError])).
Proof.
  assert (files (World disk []) !! INPUT_FILE <> None) as Hex
    by (vm_compute; discriminate).
  assert (exists img,
            load raw_open INPUT_FILE (World disk []) = Returns img /\
            pixelate_regions 0%Z img [FROM_COLUMN; SUBJECT_COLUMN] PIXEL_SIZE
              = Raises ValueError) as Hfail
    by (exists grid; split; vm_compute; reflexivity).
  split; [exact Hex|]. split; [right; exact Hfail|].
  apply (main_processing_error 0%Z raw_open raw_save raw_str
           (World disk []) ValueError); [exact Hex | right; exact Hfail].
Defined.

Lemma main_image_too_small_grid :
  files (World disk []) !! INPUT_FILE = Some grid /\
  raw_open grid = Returns grid /\ well_shaped grid /\
  (shape_w grid <= 895 \/ shape_h grid <= 145) /\
  main 0%Z raw_open raw_save raw_str (World disk []) =
    (1%Z, World disk
            ([] ++ ["Error processing image: " +:+ raw_str ValueError])).
Proof.
  split; [vm_compute; reflexivity|]. split; [reflexivity|].
  split; [shape_ok|]. split; [left; simpl; lia|].
  apply (main_image_too_small 0%Z raw_open raw_save raw_str
           (World disk []) grid grid);
    [vm_compute; reflexivity | reflexivity | shape_ok | left; simpl; lia].
Defined.

Lemma main_image_large_enough_wide :
  files (World wide_disk []) !! INPUT_FILE = Some wide /\
  raw_open wide = Returns wide /\ well_shaped wide /\
  895 < shape_w wide /\ 145 < shape_h wide /\
  main 0%Z raw_open raw_save raw_str (World wide_disk []) =
    match raw_save
            (blocks 0%Z (blocks 0%Z wide 539 145 875 400 15)
               895 145 1998 400 15)
            OUTPUT_FILE QUALITY wide_disk with
    | (Returns _, fs) =>
        (0%Z, World fs
                ([] ++ ["Successfully processed image: email_pixelated.jpg"]))
    | (Raises e, fs) =>
        (1%Z, World fs ([] ++ ["Error processing image: " +:+ raw_str e]))
    end.
Proof.
  assert (files (World wide_disk []) !! INPUT_FILE = Some wide) as Hf
    by apply lookup_singleton_eq.
  assert (895 < shape_w wide) as Hw
    by (unfold wide; cbn [shape_w tabulate]; lia).
  assert (145 < shape_h wide) as Hh
    by (unfold wide; cbn [shape_h tabulate]; lia).
  split; [exact Hf|]. split; [reflexivity|].
  split; [apply well_shaped_tabulate|]. split; [exact Hw|]. split; [exact Hh|].
  apply (main_image_large_enough 0%Z raw_open raw_save raw_str
           (World wide_disk []) wide wide);
    [exact Hf | reflexivity | apply well_shaped_tabulate | exact Hw | exact Hh].
Defined.

(** ** The transform on inputs with ties *)

(** Seven columns at block size 3: the reduced row holds columns 1 and 5,
    and scaled back up the tie at column 3 falls to the first of them.
    Columns 3 and 4 lie in different cells, and a second pass changes
    nothing. *)
Lemma strip_block_size_3 :
  pixelate_region 0%Z strip 0 0 7 1 3 =
    Returns (NDArray 1 7 [[11; 11; 11; 11; 15; 15; 15]%Z]) /\
  cell_source 7 3 <$> seq 0 7 = [1; 1; 1; 1; 5; 5; 5] /\
  cell 7 3 3 = 0 /\ cell 7 3 4 = 1 /\
  pixelate_region 0%Z (NDArray 1 7 [[11; 11; 11; 11; 15; 15; 15]%Z]) 0 0 7 1 3 =
    Returns (NDArray 1 7 [[11; 11; 11; 11; 15; 15; 15]%Z]).
Proof. vm_compute. done. Qed.

(** On the buffer 176 high, the sender column is 31 rows high: at block
    size 15 its row 15 is a tie and reads source row 7, so the pixel in
    row 160, column 600 of what main saves is the one of row 152. *)
Lemma tall_row_160 :
  cell_source 31 15 15 = 7 /\
  pix 0%Z (blocks 0%Z (blocks 0%Z tall 539 145 875 400 15)
             895 145 1998 400 15) 160 600 = 152%Z.
Proof.
  split; [vm_compute; reflexivity|].
  destruct (well_shaped_blocks 0%Z tall 539 145 875 400 15) as (_ & Eh & Ew).
  assert (shape_h tall = 176 /\ shape_w tall = 896) as [Sh Sw] by done.
  rewrite (pix_blocks 0%Z _ 895 145 1998 400 15 145 31 895 1);
    [|rewrite Eh, Sh; vm_compute; reflexivity
     |rewrite Ew, Sw; vm_compute; reflexivity
     |rewrite Eh, Sh; lia|rewrite Ew, Sw; lia].
  rewrite decide_False by lia.
  rewrite (pix_blocks 0%Z tall 539 145 875 400 15 145 31 539 336);
    [|rewrite Sh; vm_compute; reflexivity
     |rewrite Sw; vm_compute; reflexivity
     |rewrite Sh; lia|rewrite Sw; lia].
  rewrite decide_True by lia.
  assert (cell_source 31 15 (160 - 145) = 7) as -> by (vm_compute; reflexivity).
  assert (cell_source 336 15 (600 - 539) = 68) as -> by (vm_compute; reflexivity).
  unfold tall. by rewrite pix_tabulate by lia.
Qed.
